(** * ClangCoverage: the line mapper of [ClangCoverage.py]

    A shallow embedding of [FileMapping] and of the region extraction of
    [LoadCoverageCommand.draw_uncovered_segments].  Python integers are
    [Z], the two dictionaries are [gmap]s keyed by line number, and the
    one operation that can raise inside the constructor, [prioritized[0]],
    returns in [option]. *)

From stdpp Require Import gmap strings list fin_maps sorting pretty.

Local Open Scope Z_scope.

(** ** The segment tuple

    [Segment = namedtuple('Segment', 'line col count hasCount isRegionEntry')] *)

Record Segment : Type := mkSegment {
  line : Z;
  col : Z;
  count : Z;
  hasCount : bool;
  isRegionEntry : bool
}.

(** ** Python's [sorted]

    [sorted(xs, key = k, reverse = r)] is a stable sort on the keys: elements
    with equal keys keep their input order, also when [reverse] is set.  The
    embedding is the stable insertion sort: an element is put in front of the
    first element that does not have to precede it. *)

Section PySorted.
Context {A K : Type} (key : A → K) (le : K → K → bool).

Definition precedes (reverse : bool) (x y : A) : bool :=
  if reverse then le (key y) (key x) else le (key x) (key y).

Fixpoint insert_sorted (reverse : bool) (x : A) (l : list A) : list A :=
  match l with
  | [] => [x]
  | y :: l' =>
      if precedes reverse x y then x :: y :: l'
      else y :: insert_sorted reverse x l'
  end.

Definition sorted (reverse : bool) (l : list A) : list A :=
  foldr (insert_sorted reverse) [] l.

(** The order of the output: [x] may stand in front of [y]. *)
Definition before (reverse : bool) (x y : A) : Prop :=
  precedes reverse x y = true.
End PySorted.

(** Python compares tuples lexicographically; [False < True]. *)

Definition pos_le (a b : Z * Z) : bool :=
  (a.1 <? b.1) || ((a.1 =? b.1) && (a.2 <=? b.2)).

Definition bool_lt (a b : bool) : bool := negb a && b.

Definition entry_le (a b : bool * Z) : bool :=
  bool_lt a.1 b.1 || (Bool.eqb a.1 b.1 && (a.2 <=? b.2)).

(** [key = lambda x: (x.line, x.col)] *)
Definition position (x : Segment) : Z * Z := (line x, col x).

(** [sort_by_entry = lambda x : (x.isRegionEntry, x.count)] *)
Definition sort_by_entry (x : Segment) : bool * Z := (isRegionEntry x, count x).

(** ** The constructor of [FileMapping] *)

Record FileMapping : Type := mkFileMapping {
  name : string;
  segments : list Segment;
  segmentsForLine : gmap Z (list Segment);
  lineCounts : gmap Z Z;
  maxCount : Z
}.

(** [range(start, end)] *)
Definition range (start stop : Z) : list Z := seqZ start (stop - start).

(** [end = (seg.line+1) if seg.col > 0 else seg.line] *)
Definition line_end (seg : Segment) : Z :=
  if 0 <? col seg then line seg + 1 else line seg.

(** [self.segmentsForLine[line].append(prev_seg)] on a [defaultdict(list)]:
    a missing key starts from the empty list. *)
Definition append_for_line (prev_seg : Segment)
    (sfl : gmap Z (list Segment)) (ln : Z) : gmap Z (list Segment) :=
  <[ln := default [] (sfl !! ln) ++ [prev_seg]]> sfl.

(** The inner [for line in range(start, end)]. *)
Definition register_span (prev_seg seg : Segment)
    (sfl : gmap Z (list Segment)) : gmap Z (list Segment) :=
  foldl (append_for_line prev_seg) sfl (range (line prev_seg) (line_end seg)).

(** The outer [for seg in self.segments], with [prev_seg] threaded through. *)
Fixpoint activate (prev_seg : option Segment) (segs : list Segment)
    (sfl : gmap Z (list Segment)) : gmap Z (list Segment) :=
  match segs with
  | [] => sfl
  | seg :: rest =>
      let sfl' :=
        match prev_seg with
        | Some p => register_span p seg sfl
        | None => sfl
        end in
      activate (Some seg) rest sfl'
  end.

(** [prioritized = sorted(segments, key = sort_by_entry, reverse = True)] *)
Definition prioritized (segs : list Segment) : list Segment :=
  sorted sort_by_entry entry_le true segs.

(** The body of the second loop on the pair [(lineCounts, maxCount)];
    [prioritized[0]] raises on the empty list. *)
Definition resolve_line (st : gmap Z Z * Z) (item : Z * list Segment)
    : option (gmap Z Z * Z) :=
  match prioritized item.2 with
  | [] => None
  | top :: _ => Some (<[item.1 := count top]> st.1, Z.max st.2 (count top))
  end.

(** [for line, segments in self.segmentsForLine.items()] *)
Fixpoint resolve_lines (items : list (Z * list Segment)) (st : gmap Z Z * Z)
    : option (gmap Z Z * Z) :=
  match items with
  | [] => Some st
  | item :: rest =>
      match resolve_line st item with
      | None => None
      | Some st' => resolve_lines rest st'
      end
  end.

(** [FileMapping.__init__] *)
Definition FileMapping_init (nm : string) (segs : list Segment)
    : option FileMapping :=
  let sorted_segs := sorted position pos_le false segs in
  let sfl := activate None sorted_segs ∅ in
  match resolve_lines (map_to_list sfl) (∅, 0) with
  | None => None
  | Some (lc, mc) => Some (mkFileMapping nm sorted_segs sfl lc mc)
  end.

(** ** The queries *)

(** A Python dict iterates over its keys in the order in which they were
    inserted.  The maps [segmentsForLine] and [lineCounts] hold what the two
    dicts contain; the order of their keys is what the same two loops of the
    constructor leave behind when only the creation of keys is followed.
    [d[line]] on the defaultdict and [d[line] = v] on the dict add the key
    at the end when it is new and leave the order alone when it is not. *)
Definition note_key (keys : list Z) (ln : Z) : list Z :=
  if decide (ln ∈ keys) then keys else keys ++ [ln].

(** The inner [for line in range(start, end)] of the first loop. *)
Definition register_span_keys (prev_seg seg : Segment) (keys : list Z)
    : list Z :=
  foldl note_key keys (range (line prev_seg) (line_end seg)).

(** The outer [for seg in self.segments]: the keys of [segmentsForLine]. *)
Fixpoint activate_keys (prev_seg : option Segment) (segs : list Segment)
    (keys : list Z) : list Z :=
  match segs with
  | [] => keys
  | seg :: rest =>
      let keys' :=
        match prev_seg with
        | Some p => register_span_keys p seg keys
        | None => keys
        end in
      activate_keys (Some seg) rest keys'
  end.

(** The second loop visits [self.segmentsForLine.items()] in the order of
    its keys and assigns [self.lineCounts[line]] for each: the keys of
    [lineCounts]. *)
Definition resolve_keys (segmentsForLine_keys : list Z) : list Z :=
  foldl note_key [] segmentsForLine_keys.

(** [d.items()]: the pairs of a dict in the order of its keys. *)
Definition dict_items (d : gmap Z Z) (keys : list Z) : list (Z * Z) :=
  omap (λ k, (λ x, (k, x)) <$> d !! k) keys.

(** A [FileMapping] object in the store: what its attributes contain, the
    order of the keys of [self.lineCounts], and the generators made from it
    so far.  A generator of [countedLines] is suspended in
    [for line, cnt in self.lineCounts.items()]; its state is the number of
    pairs it has taken from the dict, which it reads again at every
    [next()]. *)
Record store : Type := mkStore {
  st_mapping : FileMapping;
  st_lineCounts_keys : list Z;
  st_generators : list nat
}.

(** [FileMapping(name, segments)] as an object with no generators yet. *)
Definition FileMapping_new (nm : string) (segs : list Segment)
    : option store :=
  match FileMapping_init nm segs with
  | None => None
  | Some m =>
      Some (mkStore m (resolve_keys (activate_keys None (segments m) [])) [])
  end.

Definition with_generators (s : store) (gens : list nat) : store :=
  mkStore (st_mapping s) (st_lineCounts_keys s) gens.

(** [self.lineCounts.items()] *)
Definition lineCounts_items (s : store) : list (Z * Z) :=
  dict_items (lineCounts (st_mapping s)) (st_lineCounts_keys s).

(** [countedLines()]: a call runs none of the body; it makes a new
    generator, named here by its index in the store. *)
Definition countedLines (s : store) : nat * store :=
  (length (st_generators s), with_generators s (st_generators s ++ [0%nat])).

(** [next(g)]: the next pair of the dict and the generator advanced by one,
    or [None] for [StopIteration]. *)
Definition gen_next (g : nat) (s : store) : option (Z * Z) * store :=
  match st_generators s !! g with
  | None => (None, s)
  | Some taken =>
      match lineCounts_items s !! taken with
      | Some item =>
          (Some item, with_generators s (<[g := S taken]> (st_generators s)))
      | None => (None, s)
      end
  end.

(** Iterating a generator to exhaustion, as a [for] loop or [list()] does:
    the pairs yielded and the store afterwards. *)
Fixpoint drain (fuel : nat) (g : nat) (s : store) : list (Z * Z) * store :=
  match fuel with
  | O => ([], s)
  | S fuel' =>
      match gen_next g s with
      | (None, s') => ([], s')
      | (Some item, s') =>
          let '(items, s'') := drain fuel' g s' in (item :: items, s'')
      end
  end.

(** [self.lineCounts.get(line, None)] *)
Definition lineCount (m : FileMapping) (ln : Z) : option Z :=
  lineCounts m !! ln.

(** ** Uncovered regions

    [view.text_point] and [sublime.Region] belong to the editor; the first is
    a parameter here and a region is the pair of its two end points. *)

Definition pairwise (segs : list Segment) : list (Segment * Segment) :=
  zip segs (tail segs).

Definition is_uncovered (pair : Segment * Segment) : bool :=
  (count pair.1 =? 0) && isRegionEntry pair.1.

Definition uncovered (segs : list Segment) : list (Segment * Segment) :=
  filter (λ pair, is_uncovered pair = true) (pairwise segs).

Section Regions.
Variable text_point : Z → Z → Z.

Definition seg_pair_to_region (pair : Segment * Segment) : Z * Z :=
  let '(a, b) := pair in
  (text_point (line a - 1) (col a - 1), text_point (line b - 1) (col b - 1)).

Definition draw_uncovered_segments (m : FileMapping) : list (Z * Z) :=
  seg_pair_to_region <$> uncovered (segments m).
End Regions.

(** ** The editor command: [LoadCoverageCommand]

    The command talks to the editor through [self.view] and prints to the
    console.  A run of one of its methods is the list of the calls it makes,
    in order, and either a result or the exception that ends it. *)

Inductive exn : Type :=
  | KeyError (key : string)
  | IndexError
  | LoadError.

Inductive layout : Type := LAYOUT_INLINE.

(** [sublime.Phantom(region, content, layout)] *)
Record Phantom : Type := mkPhantom {
  ph_region : Z * Z;
  ph_content : string;
  ph_layout : layout
}.

Inductive event : Type :=
  | Print (s : string)
  | PrintRegions (regions : list (Z * Z))
  | SetReadOnly (b : bool)
  | EraseRegions (key : string)
  | AddRegions (key : string) (regions : list (Z * Z))
               (scope icon : string) (flags : Z)
  | ErasePhantoms (key : string)
  | PhantomSetUpdate (phantoms : list Phantom)
  | ShowInputPanel (title initial : string).

(** The calls that change what the view shows. *)
Definition changes_view (e : event) : bool :=
  match e with
  | Print _ | PrintRegions _ | ShowInputPanel _ _ => false
  | _ => true
  end.

Definition cmd (A : Type) : Type := list event * (exn + A).

Definition cmd_ret {A} (a : A) : cmd A := ([], inr a).

Definition cmd_bind {A B} (k : A → cmd B) (c : cmd A) : cmd B :=
  match c with
  | (t, inl e) => (t, inl e)
  | (t, inr a) => let '(t', r) := k a in (t ++ t', r)
  end.

#[global] Instance cmd_mret : MRet cmd := @cmd_ret.
#[global] Instance cmd_mbind : MBind cmd := @cmd_bind.

Definition emit (e : event) : cmd unit := ([e], inr tt).

Definition raise {A} (e : exn) : cmd A := ([], inl e).

(** [d[key]] on a dict, and on a dict member that may be missing. *)
Definition getitem {V} (d : gmap string V) (key : string) : cmd V :=
  match d !! key with
  | Some x => mret x
  | None => raise (KeyError key)
  end.

Definition member {V} (field : option V) (key : string) : cmd V :=
  match field with
  | Some x => mret x
  | None => raise (KeyError key)
  end.

(** What the command reads from the editor: [view.text_point],
    [view.line], the row of [view.rowcol(view.size())], the string entries
    of [view.style_for_scope(scope)] and of
    [view.window().extract_variables()]. *)
Record View : Type := mkView {
  view_text_point : Z → Z → Z;
  view_line : Z → Z * Z;
  view_tot_lines : Z;
  view_style_for_scope : string → gmap string string;
  view_variables : gmap string string
}.

Definition REGION_KEY : string := "coverage-not-covered-regions".
Definition PHANTOM_SET_KEY : string := "coverage-phantom-set".

(** [str(n)] and [len(s)] for an [int] and a [str]. *)
Definition str (n : Z) : string := pretty n.

Definition len (s : string) : Z := Z.of_nat (String.length s).

(** [s * n]: the empty string when [n <= 0]. *)
Fixpoint repeat_string (s : string) (n : nat) : string :=
  match n with
  | O => ""
  | S n' => s +:+ repeat_string s n'
  end.

Definition str_mul (s : string) (n : Z) : string :=
  repeat_string s (Z.to_nat n).

Definition double_quote : string := String (Ascii.ascii_of_nat 34) "".

(** [max_len = max(4, len(str(mapping.maxCount)))] *)
Definition max_len (m : FileMapping) : Z :=
  Z.max 4 (len (str (maxCount m))).

(** [str_cnt = str(cnt) if cnt is not None else ''] *)
Definition count_digits (cnt : option Z) : string :=
  match cnt with
  | Some c => str c
  | None => ""
  end.

(** [("&nbsp;" * pad_len) + str_cnt + "&nbsp;"] *)
Definition padded_count (width : Z) (cnt : option Z) : string :=
  let str_cnt := count_digits cnt in
  let pad_len := width - len str_cnt in
  str_mul "&nbsp;" pad_len +:+ str_cnt +:+ "&nbsp;".

(** [create_phantom_count], the closure of [draw_line_counts]. *)
Definition create_phantom_count (v : View) (m : FileMapping)
    (color_normal color_uncovered : string) (line_idx : Z) : Phantom :=
  let cnt := lineCount m (line_idx + 1) in
  let color :=
    if bool_decide (cnt = Some 0) then color_uncovered else color_normal in
  let str_cnt := padded_count (max_len m) cnt in
  let point := view_text_point v line_idx 0 in
  let line_region := view_line v point in
  let style := "color: " +:+ color +:+ "; " in
  let style :=
    style +:+ ("border-right: 1px solid " +:+ color_normal +:+ "; ") in
  let style := style +:+ "margin-right: 10px;" in
  let content :=
    "<div style=" +:+ double_quote +:+ style +:+ double_quote +:+ ">"
      +:+ str_cnt +:+ "</div>" in
  mkPhantom line_region content LAYOUT_INLINE.

(** [LoadCoverageCommand.draw_line_counts] *)
Definition draw_line_counts (v : View) (m : FileMapping) : cmd unit :=
  color_normal ← getitem (view_style_for_scope v "comment") "foreground";
  color_uncovered ← getitem (view_style_for_scope v "invalid") "background";
  let line_indexes := range 0 (view_tot_lines v + 1) in
  let phantoms :=
    create_phantom_count v m color_normal color_uncovered <$> line_indexes in
  emit (PhantomSetUpdate phantoms).

(** [LoadCoverageCommand.draw_uncovered_segments], with its calls. *)
Definition draw_uncovered_segments_cmd (v : View) (m : FileMapping)
    : cmd unit :=
  let regions := draw_uncovered_segments (view_text_point v) m in
  emit (PrintRegions regions);;
  emit (EraseRegions REGION_KEY);;
  emit (AddRegions REGION_KEY regions "invalid" "" 0).

(** [LoadCoverageCommand.show_coverage] *)
Definition show_coverage (v : View) (m : FileMapping) : cmd unit :=
  emit (Print "[Coverage] Showing coverage");;
  emit (SetReadOnly true);;
  draw_uncovered_segments_cmd v m;;
  draw_line_counts v m.

(** [LoadCoverageCommand.run]; [on_done] is called by the editor with the
    path typed into the panel. *)
Definition run (show : bool) : cmd unit :=
  if show then emit (ShowInputPanel "Clang Coverage JSON path: " "")
  else
    emit (SetReadOnly false);;
    emit (EraseRegions REGION_KEY);;
    emit (ErasePhantoms PHANTOM_SET_KEY).

(** The document [json.load] returns, for an export whose members have the
    types of the export format: a member may be missing, a list may be
    empty, and a segment is a 5-element list of three integers and two
    booleans. *)
Record FileRecord : Type := mkFileRecord {
  rec_filename : option string;
  rec_segments : option (list Segment)
}.

Record ExportData : Type := mkExportData {
  data_files : option (list FileRecord)
}.

Record JsonRoot : Type := mkJsonRoot {
  root_has_type : bool;
  root_version : option string;
  root_data : option (list ExportData)
}.

(** [seq[0]] *)
Definition first_item {A} (l : list A) : cmd A :=
  match l with
  | x :: _ => mret x
  | [] => raise IndexError
  end.

(** [next(filter(match_file, files))] with
    [match_file = lambda f : f['filename'] == current_file]: the filter is
    lazy, so files after the first match are never looked at; [None] stands
    for [StopIteration]. *)
Fixpoint next_match (current_file : string) (files : list FileRecord)
    : cmd (option FileRecord) :=
  match files with
  | [] => mret None
  | f :: rest =>
      filename ← member (rec_filename f) "filename";
      if String.eqb filename current_file then mret (Some f)
      else next_match current_file rest
  end.

(** [FileMapping(name, segments)] as a step of a command. *)
Definition new_FileMapping (nm : string) (segs : list Segment)
    : cmd FileMapping :=
  match FileMapping_init nm segs with
  | Some m => mret m
  | None => raise IndexError
  end.

(** What [open(path)] and [json.load(fp)] give for a path: the document,
    or nothing when either of them raises. *)
Definition loader : Type := string → option JsonRoot.

Definition load (ld : loader) (path : string) : cmd JsonRoot :=
  match ld path with
  | None => raise LoadError
  | Some root => mret root
  end.

(** [LoadCoverageCommand.on_done] *)
Definition on_done (v : View) (ld : loader) (path : string) : cmd unit :=
  current_file ← getitem (view_variables v) "file";
  emit (Print ("[Coverage] Opening " +:+ path));;
  json_root ← load ld path;
  if negb (root_has_type json_root)
     || negb (bool_decide (is_Some (root_version json_root)))
  then emit (Print "[Coverage] This doesn't look like a clang coverage JSON")
  else
    ver ← member (root_version json_root) "version";
    if negb (String.eqb ver "2.0.0")
    then emit (Print "[Coverage] Unsupported coverage export version")
    else
      data_list ← member (root_data json_root) "data";
      data ← first_item data_list;
      files ← member (data_files data) "files";
      found ← next_match current_file files;
      match found with
      | None => emit (Print "[Coverage] Couldn't find a matching file")
      | Some file =>
          segs ← member (rec_segments file) "segments";
          filename ← member (rec_filename file) "filename";
          mapping ← new_FileMapping filename segs;
          show_coverage v mapping
      end.

(** ** Notions used to state the properties *)

(** The pair [(prev_seg, seg)] reaches line [ln] when [ln] is in
    [range(prev_seg.line, end)]. *)
Definition covers (ln : Z) (pair : Segment * Segment) : bool :=
  (line pair.1 <=? ln) && (ln <? line_end pair.2).

(** The segments registered for [ln], in registration order: the first
    components of the consecutive pairs that reach it. *)
Definition active_on (segs : list Segment) (ln : Z) : list Segment :=
  (filter (λ pair, covers ln pair = true) (pairwise segs)).*1.

(** What appending [extra] (if any) does to one entry of the defaultdict. *)
Definition extend (o : option (list Segment)) (extra : list Segment)
    : option (list Segment) :=
  match extra with
  | [] => o
  | _ => Some (default [] o ++ extra)
  end.

(** The count the second loop stores for a line whose segments are [l]. *)
Definition top_count (l : list Segment) : option Z :=
  count <$> head (prioritized l).

(** What a constructed mapping holds, field by field. *)
Record built_from (nm : string) (segs : list Segment) (m : FileMapping)
    : Prop := {
  built_name : name m = nm;
  built_segments : segments m = sorted position pos_le false segs;
  built_segmentsForLine : segmentsForLine m = activate None (segments m) ∅;
  built_lineCounts :
    ∀ ln, lineCounts m !! ln = top_count (active_on (segments m) ln);
  built_maxCount_nonneg : 0 ≤ maxCount m;
  built_maxCount_upper : ∀ ln c, lineCounts m !! ln = Some c → c ≤ maxCount m;
  built_maxCount_attained :
    maxCount m = 0 ∨ ∃ ln, lineCounts m !! ln = Some (maxCount m)
}.

(** Uncovered regions, as the specification words them: scan the
    consecutive pairs [(a, b)]; a pair with [a.count == 0] and
    [a.isRegionEntry] gives one region from the position of [a] to the
    position of [b]. *)
Fixpoint spec_uncovered_regions (segs : list Segment)
    : list ((Z * Z) * (Z * Z)) :=
  match segs with
  | a :: rest =>
      match rest with
      | b :: _ =>
          if (count a =? 0) && isRegionEntry a
          then (position a, position b) :: spec_uncovered_regions rest
          else spec_uncovered_regions rest
      | [] => []
      end
  | [] => []
  end.

(** The editor's view of a region given by two 1-based positions. *)
Definition region_of_positions (text_point : Z → Z → Z)
    (r : (Z * Z) * (Z * Z)) : Z * Z :=
  (text_point (r.1.1 - 1) (r.1.2 - 1), text_point (r.2.1 - 1) (r.2.2 - 1)).

Definition pair_positions (pair : Segment * Segment) : (Z * Z) * (Z * Z) :=
  (position pair.1, position pair.2).

(** Both ends of every pair of the sorted list ascend. *)
Definition pair_le (p q : Segment * Segment) : Prop :=
  pos_le (position p.1) (position q.1) = true ∧
  pos_le (position p.2) (position q.2) = true.

(** Calling [countedLines()] and iterating the generator to exhaustion,
    then doing the same a second time in the store the first iteration
    leaves: the two generators, the pairs each iteration yields, and the
    store at the end. *)
Definition iterate_twice (fuel : nat) (s : store)
    : (nat * list (Z * Z)) * (nat * list (Z * Z)) * store :=
  let '(g1, s1) := countedLines s in
  let '(pairs1, s2) := drain fuel g1 s1 in
  let '(g2, s3) := countedLines s2 in
  let '(pairs2, s4) := drain fuel g2 s3 in
  ((g1, pairs1), (g2, pairs2), s4).

(** Two segments that agree on every field but [hasCount]. *)
Definition same_but_hasCount (a b : Segment) : Prop :=
  line a = line b ∧ col a = col b ∧ count a = count b ∧
  isRegionEntry a = isRegionEntry b.

Definition pair_same_but_hasCount (p q : Segment * Segment) : Prop :=
  same_but_hasCount p.1 q.1 ∧ same_but_hasCount p.2 q.2.

(** The format checks of [on_done]. *)
Definition passes_checks (root : JsonRoot) : Prop :=
  root_has_type root = true ∧ root_version root = Some "2.0.0".

Definition opening (path : string) : event :=
  Print ("[Coverage] Opening " +:+ path).

(** The ways a run of [on_done] can go. *)
Inductive on_done_outcome (v : View) (ld : loader) (path : string)
    : cmd unit → Prop :=
  | od_no_file_variable :
      view_variables v !! "file" = None →
      on_done_outcome v ld path ([], inl (KeyError "file"))
  | od_load_fails cf :
      view_variables v !! "file" = Some cf →
      ld path = None →
      on_done_outcome v ld path ([opening path], inl LoadError)
  | od_not_coverage cf root :
      view_variables v !! "file" = Some cf →
      ld path = Some root →
      root_has_type root = false ∨ root_version root = None →
      on_done_outcome v ld path
        ([opening path;
          Print "[Coverage] This doesn't look like a clang coverage JSON"],
         inr tt)
  | od_unsupported cf root ver :
      view_variables v !! "file" = Some cf →
      ld path = Some root →
      root_has_type root = true →
      root_version root = Some ver →
      ver ≠ "2.0.0" →
      on_done_outcome v ld path
        ([opening path;
          Print "[Coverage] Unsupported coverage export version"],
         inr tt)
  | od_no_data cf root :
      view_variables v !! "file" = Some cf →
      ld path = Some root →
      passes_checks root →
      root_data root = None →
      on_done_outcome v ld path ([opening path], inl (KeyError "data"))
  | od_empty_data cf root :
      view_variables v !! "file" = Some cf →
      ld path = Some root →
      passes_checks root →
      root_data root = Some [] →
      on_done_outcome v ld path ([opening path], inl IndexError)
  | od_no_files cf root data rest :
      view_variables v !! "file" = Some cf →
      ld path = Some root →
      passes_checks root →
      root_data root = Some (data :: rest) →
      data_files data = None →
      on_done_outcome v ld path ([opening path], inl (KeyError "files"))
  | od_no_filename cf root data rest files :
      view_variables v !! "file" = Some cf →
      ld path = Some root →
      passes_checks root →
      root_data root = Some (data :: rest) →
      data_files data = Some files →
      next_match cf files = ([], inl (KeyError "filename")) →
      on_done_outcome v ld path ([opening path], inl (KeyError "filename"))
  | od_no_match cf root data rest files :
      view_variables v !! "file" = Some cf →
      ld path = Some root →
      passes_checks root →
      root_data root = Some (data :: rest) →
      data_files data = Some files →
      next_match cf files = ([], inr None) →
      on_done_outcome v ld path
        ([opening path; Print "[Coverage] Couldn't find a matching file"],
         inr tt)
  | od_no_segments cf root data rest files file :
      view_variables v !! "file" = Some cf →
      ld path = Some root →
      passes_checks root →
      root_data root = Some (data :: rest) →
      data_files data = Some files →
      next_match cf files = ([], inr (Some file)) →
      rec_segments file = None →
      on_done_outcome v ld path ([opening path], inl (KeyError "segments"))
  | od_shown cf root data rest files file segs m :
      view_variables v !! "file" = Some cf →
      ld path = Some root →
      passes_checks root →
      root_data root = Some (data :: rest) →
      data_files data = Some files →
      next_match cf files = ([], inr (Some file)) →
      rec_segments file = Some segs →
      FileMapping_init cf segs = Some m →
      on_done_outcome v ld path
        (opening path :: (show_coverage v m).1, (show_coverage v m).2).

(** ** Facts about [sorted] *)

Section PySortedFacts.
Context {A K : Type} (key : A → K) (le : K → K → bool).
Hypothesis le_total : ∀ a b, le a b = true ∨ le b a = true.
Hypothesis le_trans : ∀ a b c, le a b = true → le b c = true → le a c = true.

Lemma before_total r x y : before key le r x y ∨ before key le r y x.
Proof. unfold before, precedes. destruct r; apply le_total. Qed.

Lemma before_trans r x y z :
  before key le r x y → before key le r y z → before key le r x z.
Proof. unfold before, precedes. destruct r; eauto. Qed.

Lemma insert_sorted_perm r x l : insert_sorted key le r x l ≡ₚ x :: l.
Proof.
  induction l as [|y l IH]; simpl; [done|].
  destruct (precedes key le r x y); [done|].
  rewrite IH. apply Permutation_swap.
Qed.

Lemma sorted_perm r l : sorted key le r l ≡ₚ l.
Proof.
  induction l as [|x l IH]; simpl; [done|].
  unfold sorted in *. simpl. by rewrite insert_sorted_perm, IH.
Qed.

Lemma insert_sorted_StronglySorted r x l :
  StronglySorted (before key le r) l →
  StronglySorted (before key le r) (insert_sorted key le r x l).
Proof.
  induction 1 as [|y l Hl IH Hy]; simpl.
  - repeat constructor.
  - destruct (precedes key le r x y) eqn:Hxy.
    + constructor; [by constructor|].
      constructor; [done|].
      eapply Forall_impl; [exact Hy|]. intros z Hz.
      by apply before_trans with y.
    + constructor; [done|].
      rewrite insert_sorted_perm. constructor; [|done].
      destruct (before_total r x y) as [Hb|Hb]; [|done].
      unfold before in Hb. congruence.
Qed.

Lemma sorted_StronglySorted r l :
  StronglySorted (before key le r) (sorted key le r l).
Proof.
  induction l as [|x l IH]; [constructor|].
  by apply insert_sorted_StronglySorted.
Qed.

Lemma sorted_nil_inv r l : sorted key le r l = [] → l = [].
Proof.
  intros Hs. apply Permutation_nil. by rewrite <-(sorted_perm r l), Hs.
Qed.

(** The first element of a non-empty sorted list precedes every element. *)
Lemma sorted_head r l top rest :
  sorted key le r l = top :: rest →
  top ∈ l ∧ ∀ x, x ∈ l → before key le r top x.
Proof.
  intros Hs.
  pose proof (sorted_perm r l) as Hp.
  pose proof (sorted_StronglySorted r l) as Hst.
  rewrite Hs in Hp, Hst. split.
  - rewrite <-Hp. by left.
  - intros x Hx. rewrite <-Hp in Hx.
    apply StronglySorted_cons in Hst as [Hall _].
    apply elem_of_cons in Hx as [->|Hx].
    + by destruct (before_total r top top).
    + by eapply Forall_forall in Hall.
Qed.

(** [sorted] is stable: the elements with a given key come out in their
    input order. *)
Lemma insert_sorted_filter_key `{EqDecision K} r k x l :
  filter (λ y, key y = k) (insert_sorted key le r x l)
  = filter (λ y, key y = k) (x :: l).
Proof.
  induction l as [|y l IH]; simpl; [done|].
  destruct (precedes key le r x y) eqn:Hxy; [done|].
  rewrite filter_cons, IH, !filter_cons.
  destruct (decide (key y = k)) as [Hy|Hy]; [|done].
  destruct (decide (key x = k)) as [Hx|Hx]; [|done].
  exfalso. unfold precedes in Hxy. rewrite Hx, Hy in Hxy.
  destruct r, (le_total k k); congruence.
Qed.

Lemma sorted_stable `{EqDecision K} r k l :
  filter (λ y, key y = k) (sorted key le r l) = filter (λ y, key y = k) l.
Proof.
  induction l as [|x l IH]; [done|].
  cbn [sorted foldr]. rewrite insert_sorted_filter_key.
  rewrite !filter_cons. unfold sorted in IH. by rewrite IH.
Qed.

(** Two inputs with the same elements, where equal keys mean equal
    elements, sort to the same list. *)
Lemma sorted_perm_unique r l1 l2 :
  l1 ≡ₚ l2 →
  (∀ x y, x ∈ l1 → y ∈ l1 → key x = key y → x = y) →
  (∀ a b, le a b = true → le b a = true → a = b) →
  sorted key le r l1 = sorted key le r l2.
Proof.
  intros Hp Hinj Hanti.
  apply (StronglySorted_unique_strong (before key le r)).
  - intros x y Hx Hy Hxy Hyx.
    rewrite sorted_perm in Hx. rewrite sorted_perm, <-Hp in Hy.
    apply Hinj; [done..|].
    unfold before, precedes in Hxy, Hyx. destruct r; by apply Hanti.
  - apply sorted_StronglySorted.
  - apply sorted_StronglySorted.
  - by rewrite !sorted_perm.
Qed.
End PySortedFacts.

(** [sorted] sees its input through the keys only: inputs related element by
    element by a relation that preserves keys have related outputs. *)
Section PySortedRel.
Context {A K : Type} (key : A → K) (le : K → K → bool).
Variable R : A → A → Prop.
Hypothesis R_key : ∀ x y, R x y → key x = key y.

Lemma insert_sorted_Forall2 r x y l1 l2 :
  R x y → Forall2 R l1 l2 →
  Forall2 R (insert_sorted key le r x l1) (insert_sorted key le r y l2).
Proof.
  intros Hxy. induction 1 as [|a b l1 l2 Hab Hl IH]; simpl.
  - by repeat constructor.
  - unfold precedes. rewrite (R_key _ _ Hxy), (R_key _ _ Hab).
    destruct (if r then _ else _); by repeat constructor.
Qed.

Lemma sorted_Forall2 r l1 l2 :
  Forall2 R l1 l2 →
  Forall2 R (sorted key le r l1) (sorted key le r l2).
Proof.
  induction 1; simpl; [constructor|].
  by apply insert_sorted_Forall2.
Qed.
End PySortedRel.

(** The two orders on keys. *)

Lemma pos_le_spec a b :
  pos_le a b = true ↔ a.1 < b.1 ∨ (a.1 = b.1 ∧ a.2 ≤ b.2).
Proof.
  unfold pos_le.
  rewrite orb_true_iff, andb_true_iff, Z.ltb_lt, Z.eqb_eq, Z.leb_le. done.
Qed.

Lemma pos_le_total a b : pos_le a b = true ∨ pos_le b a = true.
Proof. rewrite !pos_le_spec. lia. Qed.

Lemma pos_le_trans a b c :
  pos_le a b = true → pos_le b c = true → pos_le a c = true.
Proof. rewrite !pos_le_spec. lia. Qed.

Lemma pos_le_antisym a b : pos_le a b = true → pos_le b a = true → a = b.
Proof.
  rewrite !pos_le_spec. destruct a, b; simpl. intros ??.
  f_equal; lia.
Qed.

Lemma entry_le_spec a b :
  entry_le a b = true ↔
  (a.1 = false ∧ b.1 = true) ∨ (a.1 = b.1 ∧ a.2 ≤ b.2).
Proof.
  unfold entry_le, bool_lt.
  rewrite orb_true_iff, !andb_true_iff, negb_true_iff, Z.leb_le.
  destruct a as [[] x], b as [[] y]; simpl; intuition congruence.
Qed.

Lemma entry_le_total a b : entry_le a b = true ∨ entry_le b a = true.
Proof.
  rewrite !entry_le_spec.
  destruct a as [[] x], b as [[] y]; simpl; lia.
Qed.

Lemma entry_le_trans a b c :
  entry_le a b = true → entry_le b c = true → entry_le a c = true.
Proof.
  rewrite !entry_le_spec.
  destruct a as [[] x], b as [[] y], c as [[] z]; simpl; intros ??;
    intuition (try congruence; try lia).
Qed.

(** ** The first loop: which segments are registered for which line *)

Lemma extend_extend o e1 e2 : extend (extend o e1) e2 = extend o (e1 ++ e2).
Proof.
  destruct e1 as [|x e1]; [done|].
  destruct e2 as [|y e2]; simpl.
  - by rewrite app_nil_r.
  - by rewrite <-app_assoc.
Qed.

Lemma elem_of_range start stop ln : ln ∈ range start stop ↔ start ≤ ln < stop.
Proof. unfold range. rewrite elem_of_seqZ. lia. Qed.

Lemma NoDup_range start stop : NoDup (range start stop).
Proof. apply NoDup_seqZ. Qed.

Lemma foldl_append_for_line p lns sfl ln :
  NoDup lns →
  foldl (append_for_line p) sfl lns !! ln
  = if decide (ln ∈ lns) then Some (default [] (sfl !! ln) ++ [p])
    else sfl !! ln.
Proof.
  intros Hnd. revert sfl.
  induction Hnd as [|k lns Hk Hnd IH]; intros sfl.
  - simpl. destruct (decide (ln ∈ [])) as [Hin|_]; [|done].
    by apply elem_of_nil in Hin.
  - cbn [foldl]. rewrite IH. unfold append_for_line.
    destruct (decide (ln = k)) as [->|Hne].
    + rewrite (decide_False _ _ Hk), lookup_insert_eq.
      by rewrite decide_True by left.
    + rewrite lookup_insert_ne by done.
      destruct (decide (ln ∈ lns)) as [H1|H1].
      * by rewrite decide_True by (by right).
      * rewrite decide_False; [done|].
        intros [?|?]%elem_of_cons; done.
Qed.

Lemma register_span_lookup p seg sfl ln :
  register_span p seg sfl !! ln
  = extend (sfl !! ln) (if covers ln (p, seg) then [p] else []).
Proof.
  unfold register_span.
  rewrite foldl_append_for_line by apply NoDup_range.
  unfold covers; simpl.
  case_decide as Hin; rewrite elem_of_range in Hin.
  - replace (line p <=? ln) with true by (symmetry; apply Z.leb_le; lia).
    replace (ln <? line_end seg) with true by (symmetry; apply Z.ltb_lt; lia).
    done.
  - destruct (line p <=? ln) eqn:H1; [|done].
    destruct (ln <? line_end seg) eqn:H2; [|done].
    apply Z.leb_le in H1. apply Z.ltb_lt in H2. lia.
Qed.

Lemma active_on_cons2 p seg rest ln :
  active_on (p :: seg :: rest) ln
  = (if covers ln (p, seg) then [p] else []) ++ active_on (seg :: rest) ln.
Proof.
  unfold active_on, pairwise. simpl.
  rewrite filter_cons. destruct (covers ln (p, seg)) eqn:Hc.
  - by rewrite decide_True.
  - by rewrite decide_False by congruence.
Qed.

Lemma activate_lookup prev segs sfl ln :
  activate prev segs sfl !! ln
  = extend (sfl !! ln) (active_on (option_list prev ++ segs) ln).
Proof.
  revert prev sfl. induction segs as [|seg rest IH]; intros prev sfl.
  - destruct prev; done.
  - simpl. rewrite IH. simpl. destruct prev as [p|]; simpl.
    + by rewrite register_span_lookup, extend_extend, active_on_cons2.
    + done.
Qed.

(** The dictionary the first loop leaves behind. *)
Lemma segmentsForLine_lookup segs ln :
  activate None segs ∅ !! ln
  = match active_on segs ln with [] => None | l => Some l end.
Proof.
  rewrite activate_lookup, lookup_empty. simpl.
  by destruct (active_on segs ln).
Qed.

(** ** The second loop: resolving one count per line *)

Lemma top_count_nil : top_count [] = None.
Proof. done. Qed.

Lemma top_count_is_Some l : l ≠ [] → is_Some (top_count l).
Proof.
  intros Hl. unfold top_count.
  destruct (prioritized l) as [|top rest] eqn:Hp; [|by eexists].
  by apply sorted_nil_inv in Hp.
Qed.

Lemma resolve_line_top_count lc mc ln l c :
  top_count l = Some c →
  resolve_line (lc, mc) (ln, l) = Some (<[ln := c]> lc, Z.max mc c).
Proof.
  unfold top_count, resolve_line. simpl.
  destruct (prioritized l); simpl; [done|]. by intros [= ->].
Qed.

Lemma resolve_lines_spec items lc0 mc0 :
  NoDup items.*1 →
  Forall (λ item, item.2 ≠ []) items →
  ∃ lc mc,
    resolve_lines items (lc0, mc0) = Some (lc, mc) ∧
    (∀ ln, lc !! ln =
       match (list_to_map items : gmap Z (list Segment)) !! ln with
       | Some l => top_count l
       | None => lc0 !! ln
       end) ∧
    mc0 ≤ mc ∧
    (∀ item c, item ∈ items → top_count item.2 = Some c → c ≤ mc) ∧
    (mc = mc0 ∨ ∃ item, item ∈ items ∧ top_count item.2 = Some mc).
Proof.
  revert lc0 mc0.
  induction items as [|[k l] items IH]; intros lc0 mc0 Hnd Hne.
  - exists lc0, mc0. simpl. split_and!; [done|done|lia| |by left].
    intros ?? Hin. by apply elem_of_nil in Hin.
  - rewrite fmap_cons, NoDup_cons in Hnd. destruct Hnd as [Hk Hnd].
    apply Forall_cons in Hne as [Hl Hne]. simpl in Hk, Hl.
    destruct (top_count_is_Some l Hl) as [c Hc].
    destruct (IH (<[k := c]> lc0) (Z.max mc0 c) Hnd Hne)
      as (lc & mc & Hrun & Hlc & Hge & Hub & Hin).
    exists lc, mc. cbn [resolve_lines].
    rewrite (resolve_line_top_count _ _ _ _ _ Hc).
    split_and!; [done| |lia| |].
    + intros ln. rewrite Hlc, list_to_map_cons.
      destruct (decide (ln = k)) as [->|Hneq].
      * rewrite (not_elem_of_list_to_map_1 _ _ Hk).
        by rewrite !lookup_insert_eq.
      * rewrite !(lookup_insert_ne _ k ln) by done. done.
    + intros item c' [->|Hitem]%elem_of_cons Hc'.
      * simpl in Hc'. rewrite Hc in Hc'. injection Hc' as <-. lia.
      * by apply (Hub item).
    + destruct Hin as [->|(item & Hitem & Htop)].
      * destruct (Z.max_spec mc0 c) as [[_ ->]|[_ ->]].
        -- right. exists (k, l). split; [by left|done].
        -- by left.
      * right. exists item. split; [by right|done].
Qed.

(** The order in which [items()] hands out the lines does not matter. *)
Lemma resolve_lines_order_irrelevant items1 items2 st :
  items1 ≡ₚ items2 →
  NoDup items1.*1 →
  Forall (λ item, item.2 ≠ []) items1 →
  resolve_lines items1 st = resolve_lines items2 st.
Proof.
  intros Hp Hnd Hne. destruct st as [lc0 mc0].
  destruct (resolve_lines_spec items1 lc0 mc0 Hnd Hne)
    as (lc1 & mc1 & -> & Hlc1 & Hge1 & Hub1 & Hin1).
  destruct (resolve_lines_spec items2 lc0 mc0)
    as (lc2 & mc2 & -> & Hlc2 & Hge2 & Hub2 & Hin2).
  { by rewrite <-Hp. }
  { by rewrite <-Hp. }
  do 2 f_equal.
  - apply map_eq. intros ln. rewrite Hlc1, Hlc2.
    by rewrite (list_to_map_proper items1 items2 Hnd Hp).
  - assert (mc1 ≤ mc2).
    { destruct Hin1 as [->|(item & Hitem & Htop)]; [done|].
      rewrite Hp in Hitem. by apply (Hub2 item). }
    assert (mc2 ≤ mc1).
    { destruct Hin2 as [->|(item & Hitem & Htop)]; [done|].
      rewrite <-Hp in Hitem. by apply (Hub1 item). }
    lia.
Qed.

(** ** The constructor as a whole *)

Lemma activate_lists_nonempty segs :
  Forall (λ item : Z * list Segment, item.2 ≠ [])
         (map_to_list (activate None segs ∅)).
Proof.
  apply Forall_forall. intros [ln l] Hin. simpl.
  apply elem_of_map_to_list in Hin.
  rewrite segmentsForLine_lookup in Hin.
  destruct (active_on segs ln); by simplify_eq.
Qed.

Lemma FileMapping_init_built nm segs :
  ∃ m, FileMapping_init nm segs = Some m ∧ built_from nm segs m.
Proof.
  unfold FileMapping_init.
  set (ss := sorted position pos_le false segs).
  destruct (resolve_lines_spec (map_to_list (activate None ss ∅)) ∅ 0)
    as (lc & mc & Hrun & Hlc & Hge & Hub & Hin).
  { apply NoDup_fst_map_to_list. }
  { apply activate_lists_nonempty. }
  rewrite Hrun. eexists. split; [done|].
  assert (∀ ln, lc !! ln = top_count (active_on ss ln)) as Hlook.
  { intros ln. rewrite Hlc, list_to_map_to_list, segmentsForLine_lookup.
    destruct (active_on ss ln); [by rewrite lookup_empty|done]. }
  split; simpl; try done.
  - intros ln c Hc. rewrite Hlook in Hc.
    destruct (active_on ss ln) as [|s l] eqn:Hact; [done|].
    apply (Hub (ln, s :: l)); [|done].
    apply elem_of_map_to_list. by rewrite segmentsForLine_lookup, Hact.
  - destruct Hin as [->|([ln l] & Hitem & Htop)]; [by left|right].
    exists ln. rewrite Hlook.
    apply elem_of_map_to_list in Hitem.
    rewrite segmentsForLine_lookup in Hitem.
    destruct (active_on ss ln); by simplify_eq.
Qed.

Lemma FileMapping_init_inv nm segs m :
  FileMapping_init nm segs = Some m → built_from nm segs m.
Proof.
  intros Hm. destruct (FileMapping_init_built nm segs) as (m' & Hm' & Hb).
  congruence.
Qed.

(** ** Consecutive pairs *)

Lemma pairwise_cons2 a b rest :
  pairwise (a :: b :: rest) = (a, b) :: pairwise (b :: rest).
Proof. done. Qed.

Lemma pairwise_fst segs : (pairwise segs).*1 = removelast segs.
Proof.
  induction segs as [|a [|b rest] IH]; [done..|].
  rewrite pairwise_cons2, fmap_cons, IH. done.
Qed.

Lemma removelast_subseteq {A} (l : list A) : removelast l ⊆ l.
Proof.
  induction l as [|a [|b rest] IH]; [done| |].
  - intros x Hx. by apply elem_of_nil in Hx.
  - intros x [->|Hx]%elem_of_cons; [by left|right; by apply IH].
Qed.

Lemma active_on_subseteq segs ln : active_on segs ln ⊆ removelast segs.
Proof.
  unfold active_on. rewrite <-pairwise_fst.
  intros s (pair & -> & Hin)%list_elem_of_fmap.
  apply list_elem_of_fmap. exists pair. split; [done|].
  by apply list_elem_of_filter in Hin as [_ Hin].
Qed.

(** On a well-formed segment ([col] is 1-based) the test [seg.col > 0]
    always takes its first branch. *)
Lemma line_end_wellformed seg : 1 ≤ col seg → line_end seg = line seg + 1.
Proof.
  intros Hcol. unfold line_end.
  by replace (0 <? col seg) with true by (symmetry; apply Z.ltb_lt; lia).
Qed.

(** The lines one consecutive pair registers its first segment for. *)
Lemma register_span_alone prev cur ln :
  register_span prev cur ∅ !! ln
  = if decide (line prev ≤ ln < line_end cur) then Some [prev] else None.
Proof.
  rewrite register_span_lookup, lookup_empty. unfold covers. simpl.
  destruct (decide (line prev ≤ ln < line_end cur)) as [H|H].
  - replace (line prev <=? ln) with true by (symmetry; apply Z.leb_le; lia).
    by replace (ln <? line_end cur) with true
      by (symmetry; apply Z.ltb_lt; lia).
  - destruct (line prev <=? ln) eqn:H1; [|done].
    destruct (ln <? line_end cur) eqn:H2; [|done].
    apply Z.leb_le in H1. apply Z.ltb_lt in H2. lia.
Qed.

(** ** The properties of the specification *)

(** C1: the span of [prev] is claimed to stop before [cur.line] when
    [cur.col == 1].  The constructor tests [seg.col > 0], so for the sorted
    pair [(2,1,4,true,true)], [(5,1,1,true,false)] the first segment is
    registered for line 5 as well, which is outside the claimed range
    [[2, 5)]. *)
Theorem C1_span_includes_line_of_column_one_successor :
  let prev := mkSegment 2 1 4 true true in
  let cur := mkSegment 5 1 1 true false in
  sorted position pos_le false [prev; cur] = [prev; cur] ∧
  col cur = 1 ∧
  line_end cur = line cur + 1 ∧
  register_span prev cur ∅ !! line cur = Some [prev] ∧
  ∃ m, FileMapping_init "a.c" [prev; cur] = Some m ∧
       segmentsForLine m !! 2 = Some [prev] ∧
       segmentsForLine m !! 3 = Some [prev] ∧
       segmentsForLine m !! 4 = Some [prev] ∧
       segmentsForLine m !! 5 = Some [prev] ∧
       segmentsForLine m !! 6 = None.
Proof.
  intros prev cur. split_and!; [done..|].
  eexists. split; [vm_compute; reflexivity|]. by vm_compute.
Qed.

(** C2: on the input [(1,1,0,true,true)], [(3,1,7,true,false)] the
    constructor yields [maxCount == 0] and one uncovered region from
    (line 1, col 1) to (line 3, col 1), but [lineCounts] is
    [{1:0, 2:0, 3:0}]: line 3 has an entry too. *)
Theorem C2_two_segment_case (text_point : Z → Z → Z) :
  let s1 := mkSegment 1 1 0 true true in
  let s2 := mkSegment 3 1 7 true false in
  ∃ m, FileMapping_init "a.c" [s1; s2] = Some m ∧
       lineCounts m = <[1 := 0]> (<[2 := 0]> (<[3 := 0]> ∅)) ∧
       lineCounts m ≠ <[1 := 0]> (<[2 := 0]> ∅) ∧
       maxCount m = 0 ∧
       uncovered (segments m) = [(s1, s2)] ∧
       draw_uncovered_segments text_point m
       = [(text_point 0 0, text_point 2 0)].
Proof.
  intros s1 s2. eexists. split; [vm_compute; reflexivity|].
  split_and!; by vm_compute.
Qed.

(** C3, as stated, fails: [sorted] is stable, so two segments at the same
    position stay in input order, and the one that comes second owns the
    lines up to the next segment. *)
Lemma C3_same_position_counterexample :
  ¬ (∀ nm l1 l2 m1 m2,
        l1 ≡ₚ l2 →
        FileMapping_init nm l1 = Some m1 →
        FileMapping_init nm l2 = Some m2 →
        lineCounts m1 = lineCounts m2 ∧ maxCount m1 = maxCount m2).
Proof.
  intros Hclaim.
  set (a := mkSegment 1 1 5 true true).
  set (b := mkSegment 1 1 7 true true).
  set (c := mkSegment 3 1 0 true false).
  destruct (FileMapping_init_built "a.c" [a; b; c]) as (m1 & Hm1 & _).
  destruct (FileMapping_init_built "a.c" [b; a; c]) as (m2 & Hm2 & _).
  destruct (Hclaim "a.c" [a; b; c] [b; a; c] m1 m2) as [Heq _];
    [apply Permutation_swap|done..|].
  vm_compute in Hm1, Hm2.
  injection Hm1 as <-. injection Hm2 as <-.
  apply (f_equal (λ lc : gmap Z Z, lc !! 2)) in Heq.
  by vm_compute in Heq.
Qed.

(** C3, amended: when segments that share a position are the same segment
    (in particular when all positions differ), every permutation of the
    input gives the same [lineCounts] and the same [maxCount]. *)
Theorem C3_permutation_invariance nm l1 l2 :
  l1 ≡ₚ l2 →
  (∀ x y, x ∈ l1 → y ∈ l1 → position x = position y → x = y) →
  ∃ m1 m2,
    FileMapping_init nm l1 = Some m1 ∧
    FileMapping_init nm l2 = Some m2 ∧
    lineCounts m1 = lineCounts m2 ∧ maxCount m1 = maxCount m2.
Proof.
  intros Hp Hinj.
  destruct (FileMapping_init_built nm l1) as (m1 & Hm1 & _).
  exists m1, m1. split_and!; [done| |done..].
  rewrite <-Hm1. unfold FileMapping_init.
  by rewrite (sorted_perm_unique position pos_le pos_le_total pos_le_trans
                false l1 l2 Hp Hinj pos_le_antisym).
Qed.

Lemma C3_permutation_invariance_witness :
  ∃ m1 m2,
    FileMapping_init "a.c"
      [mkSegment 4 2 1 true false; mkSegment 1 1 3 true true] = Some m1 ∧
    FileMapping_init "a.c"
      [mkSegment 1 1 3 true true; mkSegment 4 2 1 true false] = Some m2 ∧
    lineCounts m1 = lineCounts m2 ∧ maxCount m1 = maxCount m2.
Proof.
  apply C3_permutation_invariance.
  - apply Permutation_swap.
  - intros x y Hx Hy.
    repeat (apply elem_of_cons in Hx as [->|Hx]);
      repeat (apply elem_of_cons in Hy as [->|Hy]);
      try (by apply elem_of_nil in Hx); try (by apply elem_of_nil in Hy);
      by vm_compute.
Defined.

Lemma StronglySorted_weaken {A} (R1 R2 : relation A) (l : list A) :
  (∀ x y, R1 x y → R2 x y) → StronglySorted R1 l → StronglySorted R2 l.
Proof.
  intros Himpl. induction 1 as [|x l _ IH Hx]; constructor; [done|].
  eapply Forall_impl; [exact Hx|]. auto.
Qed.

(** The order of [prioritized] in terms of the two fields: [x] may stand
    in front of [y] when [x] is a region entry and [y] is not, or when
    they agree on that and [x] has the larger or the same count. *)
Lemma prioritized_before x y :
  before sort_by_entry entry_le true x y →
  (isRegionEntry x = true ∧ isRegionEntry y = false) ∨
  (isRegionEntry x = isRegionEntry y ∧ count y ≤ count x).
Proof.
  unfold before, precedes. rewrite entry_le_spec. unfold sort_by_entry.
  simpl. intros [[? ?]|[? ?]]; [by left|by right].
Qed.

(** C4: the count stored for a line is the count of the segment ranked
    first when the segments registered for the line are ordered by
    [(isRegionEntry, count)] descending: the list the code sorts holds
    the same segments, every region entry in it stands before every other
    segment, segments of equal entry status stand by descending count, and
    its first segment gives the count.  When the segments registered for
    the line are one with [isRegionEntry = False, count = 9] and one with
    [isRegionEntry = True, count = 2], the stored count is 2. *)
Theorem C4_dominant_count nm segs m ln l :
  FileMapping_init nm segs = Some m →
  segmentsForLine m !! ln = Some l →
  (∃ top rest,
      sorted sort_by_entry entry_le true l = top :: rest ∧
      top :: rest ≡ₚ l ∧
      StronglySorted
        (λ x y, (isRegionEntry x = true ∧ isRegionEntry y = false) ∨
                (isRegionEntry x = isRegionEntry y ∧ count y ≤ count x))
        (top :: rest) ∧
      (∀ s, s ∈ l →
            (isRegionEntry top = true ∧ isRegionEntry s = false) ∨
            (isRegionEntry top = isRegionEntry s ∧ count s ≤ count top)) ∧
      lineCounts m !! ln = Some (count top)) ∧
  (∀ a b, l ≡ₚ [a; b] →
          isRegionEntry a = false → count a = 9 →
          isRegionEntry b = true → count b = 2 →
          lineCounts m !! ln = Some 2).
Proof.
  intros Hm Hl. apply FileMapping_init_inv in Hm.
  assert (lineCounts m !! ln = top_count l) as Hlc.
  { rewrite (built_lineCounts _ _ _ Hm).
    rewrite (built_segmentsForLine _ _ _ Hm), segmentsForLine_lookup in Hl.
    destruct (active_on (segments m) ln); by simplify_eq. }
  assert (l ≠ []) as Hne.
  { rewrite (built_segmentsForLine _ _ _ Hm), segmentsForLine_lookup in Hl.
    destruct (active_on (segments m) ln); by simplify_eq. }
  unfold top_count, prioritized in Hlc.
  pose proof (sorted_perm sort_by_entry entry_le true l) as Hperm.
  pose proof (sorted_StronglySorted sort_by_entry entry_le
                entry_le_total entry_le_trans true l) as Hsorted.
  destruct (sorted sort_by_entry entry_le true l) as [|top rest] eqn:Hs.
  { by apply sorted_nil_inv in Hs. }
  destruct (sorted_head sort_by_entry entry_le entry_le_total entry_le_trans
              true l top rest Hs) as [Hin Hmax].
  assert (∀ s, s ∈ l →
            (isRegionEntry top = true ∧ isRegionEntry s = false) ∨
            (isRegionEntry top = isRegionEntry s ∧ count s ≤ count top))
    as Hdom.
  { intros s Hs'. by apply prioritized_before, Hmax. }
  split.
  - exists top, rest. split_and!; [done|done| |done|done].
    eapply StronglySorted_weaken; [|exact Hsorted].
    apply prioritized_before.
  - intros a b Hab Ha Ha9 Hb Hb2. rewrite Hlc. simpl. f_equal.
    assert (b ∈ l) as Hbin by (rewrite Hab; right; left).
    specialize (Hdom b Hbin).
    rewrite Hab in Hin. apply elem_of_cons in Hin as [->|Hin].
    + rewrite Ha, Hb in Hdom. by destruct Hdom as [[? _]|[? _]].
    + by apply list_elem_of_singleton in Hin as ->.
Qed.

Lemma C4_dominant_count_witness :
  let a := mkSegment 1 1 9 true false in
  let b := mkSegment 1 5 2 true true in
  let c := mkSegment 2 1 0 true false in
  let m := mkFileMapping "a.c" [a; b; c]
             (<[1 := [a; b]]> (<[2 := [b]]> ∅))
             (<[1 := 2]> (<[2 := 2]> ∅)) 2 in
  FileMapping_init "a.c" [c; b; a] = Some m ∧
  lineCounts m !! 1 = Some 2.
Proof.
  intros a b c m.
  assert (FileMapping_init "a.c" [c; b; a] = Some m) as Hm by by vm_compute.
  split; [exact Hm|].
  refine (proj2 (C4_dominant_count "a.c" [c; b; a] m 1 [a; b] Hm _)
            a b _ _ _ _ _); reflexivity.
Defined.

(** ** [maxCount] and the keys of [lineCounts] *)

Lemma built_count_from_input nm segs m ln c :
  built_from nm segs m → lineCounts m !! ln = Some c →
  ∃ s, s ∈ segs ∧ count s = c.
Proof.
  intros Hb Hc. rewrite (built_lineCounts _ _ _ Hb) in Hc.
  unfold top_count, prioritized in Hc.
  destruct (sorted sort_by_entry entry_le true (active_on (segments m) ln))
    as [|top rest] eqn:Hs; [done|].
  injection Hc as <-. exists top. split; [|done].
  apply (sorted_head sort_by_entry entry_le entry_le_total entry_le_trans)
    in Hs as [Hin _].
  apply active_on_subseteq, removelast_subseteq in Hin.
  rewrite (built_segments _ _ _ Hb) in Hin.
  by rewrite sorted_perm in Hin.
Qed.

Lemma built_dom nm segs m :
  built_from nm segs m → dom (lineCounts m) = dom (segmentsForLine m).
Proof.
  intros Hb. apply set_eq. intros ln. rewrite !elem_of_dom.
  rewrite (built_lineCounts _ _ _ Hb), (built_segmentsForLine _ _ _ Hb).
  rewrite segmentsForLine_lookup.
  destruct (active_on (segments m) ln) as [|s l] eqn:Hact.
  - rewrite top_count_nil. done.
  - split; intros _; [by eexists|]. by apply top_count_is_Some.
Qed.

(** C5: for segments with non-negative counts, [maxCount] is 0 when
    [lineCounts] is empty and otherwise is a value of [lineCounts] that no
    other value exceeds; and [lineCounts] has exactly the keys of
    [segmentsForLine]. *)
Theorem C5_maxCount_and_keys nm segs m :
  Forall (λ s, 0 ≤ count s) segs →
  FileMapping_init nm segs = Some m →
  (lineCounts m = ∅ → maxCount m = 0) ∧
  (lineCounts m ≠ ∅ →
     (∃ ln, lineCounts m !! ln = Some (maxCount m)) ∧
     (∀ ln c, lineCounts m !! ln = Some c → c ≤ maxCount m)) ∧
  dom (lineCounts m) = dom (segmentsForLine m).
Proof.
  intros Hnonneg Hm. apply FileMapping_init_inv in Hm.
  split_and!.
  - intros Hempty.
    destruct (built_maxCount_attained _ _ _ Hm) as [?|[ln Hln]]; [done|].
    by rewrite Hempty, lookup_empty in Hln.
  - intros Hne. split; [|apply (built_maxCount_upper _ _ _ Hm)].
    destruct (built_maxCount_attained _ _ _ Hm) as [Hz|?]; [|done].
    apply map_choose in Hne as (ln & c & Hc).
    exists ln. rewrite Hc. f_equal.
    pose proof (built_maxCount_upper _ _ _ Hm ln c Hc) as Hle.
    destruct (built_count_from_input _ _ _ _ _ Hm Hc) as (s & Hs & <-).
    rewrite Forall_forall in Hnonneg. specialize (Hnonneg s Hs).
    simpl in Hnonneg. lia.
  - by eapply built_dom.
Qed.

Lemma C5_maxCount_and_keys_witness :
  let a := mkSegment 1 1 9 true false in
  let b := mkSegment 1 5 2 true true in
  let c := mkSegment 3 1 0 true false in
  let m := mkFileMapping "a.c" [a; b; c]
             (<[1 := [a; b]]> (<[2 := [b]]> (<[3 := [b]]> ∅)))
             (<[1 := 2]> (<[2 := 2]> (<[3 := 2]> ∅))) 2 in
  (lineCounts m = ∅ → maxCount m = 0) ∧
  (lineCounts m ≠ ∅ →
     (∃ ln, lineCounts m !! ln = Some (maxCount m)) ∧
     (∀ ln c, lineCounts m !! ln = Some c → c ≤ maxCount m)) ∧
  dom (lineCounts m) = dom (segmentsForLine m).
Proof.
  intros a b c m. apply (C5_maxCount_and_keys "a.c" [a; b; c] m).
  - repeat constructor; by vm_compute.
  - by vm_compute.
Defined.

Lemma uncovered_spec segs :
  pair_positions <$> uncovered segs = spec_uncovered_regions segs.
Proof.
  unfold uncovered.
  induction segs as [|a [|b rest] IH]; [done..|].
  rewrite pairwise_cons2, filter_cons.
  change (spec_uncovered_regions (a :: b :: rest))
    with (if is_uncovered (a, b)
          then (position a, position b) :: spec_uncovered_regions (b :: rest)
          else spec_uncovered_regions (b :: rest)).
  destruct (decide (is_uncovered (a, b) = true)) as [Hu|Hu].
  - by rewrite Hu, fmap_cons, IH.
  - apply not_true_is_false in Hu. by rewrite Hu.
Qed.

Lemma elem_of_pairwise segs pair :
  pair ∈ pairwise segs → pair.1 ∈ segs ∧ pair.2 ∈ tail segs.
Proof.
  destruct pair as [a b]. unfold pairwise. intros Hin. split.
  - by eapply elem_of_zip_l.
  - by eapply elem_of_zip_r.
Qed.

Lemma pairwise_StronglySorted (R : relation Segment) segs :
  StronglySorted R segs →
  StronglySorted (λ p q, R p.1 q.1 ∧ R p.2 q.2) (pairwise segs).
Proof.
  induction 1 as [|a l Hl IH Ha]; [constructor|].
  destruct l as [|b rest]; [constructor|].
  rewrite pairwise_cons2. constructor; [done|].
  apply StronglySorted_cons in Hl as [Hb _].
  apply Forall_forall. intros q [Hq1 Hq2]%elem_of_pairwise. simpl in *.
  rewrite Forall_forall in Ha, Hb. auto.
Qed.

Lemma filter_StronglySorted {A} (R : relation A) (P : A → Prop)
    `{∀ x, Decision (P x)} l :
  StronglySorted R l → StronglySorted R (filter P l).
Proof.
  induction 1 as [|a l Hl IH Ha]; [constructor|].
  rewrite filter_cons. destruct (decide (P a)); [|done].
  constructor; [done|].
  apply Forall_forall. intros y [_ Hy]%list_elem_of_filter.
  by eapply Forall_forall in Ha.
Qed.

(** C6: a consecutive pair of the sorted segments is kept exactly when its
    first segment has count 0 and is a region entry; the kept pairs are the
    regions of the specification's scan, one per qualifying pair, each from
    the position of [a] to the position of [b]; they come in the order of
    the sorted list, which ascends; nothing is merged or dropped. *)
Theorem C6_uncovered_regions (text_point : Z → Z → Z) nm segs m :
  FileMapping_init nm segs = Some m →
  (∀ pair, pair ∈ uncovered (segments m) ↔
           pair ∈ pairwise (segments m) ∧
           count pair.1 = 0 ∧ isRegionEntry pair.1 = true) ∧
  pair_positions <$> uncovered (segments m)
    = spec_uncovered_regions (segments m) ∧
  draw_uncovered_segments text_point m
    = region_of_positions text_point <$> spec_uncovered_regions (segments m) ∧
  uncovered (segments m) `sublist_of` pairwise (segments m) ∧
  StronglySorted pair_le (uncovered (segments m)).
Proof.
  intros Hm. apply FileMapping_init_inv in Hm. split_and!.
  - intros pair. unfold uncovered. rewrite list_elem_of_filter.
    unfold is_uncovered. rewrite andb_true_iff, Z.eqb_eq. tauto.
  - apply uncovered_spec.
  - unfold draw_uncovered_segments.
    rewrite <-uncovered_spec, <-list_fmap_compose.
    apply list_fmap_ext. by intros _ [a b] _.
  - apply sublist_filter.
  - apply filter_StronglySorted.
    rewrite (built_segments _ _ _ Hm).
    apply (pairwise_StronglySorted (before position pos_le false)).
    apply sorted_StronglySorted; [apply pos_le_total|apply pos_le_trans].
Qed.

Lemma C6_uncovered_regions_witness :
  let a := mkSegment 1 1 0 true true in
  let b := mkSegment 1 1 0 true true in
  let c := mkSegment 2 4 0 true true in
  let d := mkSegment 5 1 3 true false in
  let m := mkFileMapping "a.c" [a; b; c; d]
             (<[1 := [a; b]]> (<[2 := [b; c]]> (<[3 := [c]]>
                (<[4 := [c]]> (<[5 := [c]]> ∅)))))
             (<[1 := 0]> (<[2 := 0]> (<[3 := 0]> (<[4 := 0]>
                (<[5 := 0]> ∅))))) 0 in
  spec_uncovered_regions (segments m)
    = [((1, 1), (1, 1)); ((1, 1), (2, 4)); ((2, 4), (5, 1))] ∧
  draw_uncovered_segments (λ row col, 100 * row + col) m
    = [(0, 0); (0, 103); (103, 400)].
Proof.
  intros a b c d m.
  assert (FileMapping_init "a.c" [d; a; c; b] = Some m) as Hm by by vm_compute.
  destruct (C6_uncovered_regions (λ row col, 100 * row + col)
              "a.c" [d; a; c; b] m Hm) as (_ & _ & Hdraw & _ & _).
  split; [reflexivity|]. rewrite Hdraw. reflexivity.
Defined.

(** C7: construction returns a mapping for every segment list; the empty
    list and every one-segment list give empty dictionaries and
    [maxCount == 0]; and whatever is registered for a line comes from the
    sorted list without its last segment. *)
Theorem C7_construction_total :
  (∀ nm segs, ∃ m,
      FileMapping_init nm segs = Some m ∧
      ∀ ln, default [] (segmentsForLine m !! ln) ⊆ removelast (segments m)) ∧
  (∀ nm, FileMapping_init nm [] = Some (mkFileMapping nm [] ∅ ∅ 0)) ∧
  (∀ nm s, FileMapping_init nm [s] = Some (mkFileMapping nm [s] ∅ ∅ 0)).
Proof.
  split_and!; [|done..].
  intros nm segs.
  destruct (FileMapping_init_built nm segs) as (m & Hm & Hb).
  exists m. split; [done|]. intros ln.
  rewrite (built_segmentsForLine _ _ _ Hb), segmentsForLine_lookup.
  pose proof (active_on_subseteq (segments m) ln) as Hsub.
  destruct (active_on (segments m) ln); [|done].
  intros x Hx. by apply elem_of_nil in Hx.
Qed.

(** ** The order of the keys and the generators of [countedLines] *)

Lemma elem_of_note_key keys ln x : x ∈ note_key keys ln ↔ x ∈ keys ∨ x = ln.
Proof.
  unfold note_key. destruct (decide (ln ∈ keys)) as [Hin|Hin].
  - split; [by left|]. by intros [?| ->].
  - by rewrite elem_of_app, list_elem_of_singleton.
Qed.

Lemma NoDup_note_key keys ln : NoDup keys → NoDup (note_key keys ln).
Proof.
  intros Hnd. unfold note_key.
  destruct (decide (ln ∈ keys)) as [Hin|Hin]; [done|].
  apply NoDup_app. split_and!; [done| |apply NoDup_singleton].
  intros x Hx Hx'. apply list_elem_of_singleton in Hx' as ->. done.
Qed.

Lemma elem_of_foldl_note_key keys lns x :
  x ∈ foldl note_key keys lns ↔ x ∈ keys ∨ x ∈ lns.
Proof.
  revert keys. induction lns as [|ln lns IH]; intros keys; simpl.
  - rewrite elem_of_nil. tauto.
  - rewrite IH, elem_of_note_key, elem_of_cons. tauto.
Qed.

Lemma NoDup_foldl_note_key keys lns :
  NoDup keys → NoDup (foldl note_key keys lns).
Proof.
  revert keys. induction lns as [|ln lns IH]; intros keys Hnd; [done|].
  simpl. by apply IH, NoDup_note_key.
Qed.

Lemma foldl_note_key_fresh keys lns :
  NoDup (keys ++ lns) → foldl note_key keys lns = keys ++ lns.
Proof.
  revert keys. induction lns as [|ln lns IH]; intros keys Hnd; simpl.
  - by rewrite app_nil_r.
  - assert (ln ∉ keys) as Hfresh.
    { apply NoDup_app in Hnd as (_ & Hdisj & _).
      intros Hin. apply (Hdisj ln Hin). left. }
    unfold note_key at 2. rewrite decide_False by done.
    rewrite IH; rewrite <-app_assoc; done.
Qed.

Lemma NoDup_activate_keys prev segs keys :
  NoDup keys → NoDup (activate_keys prev segs keys).
Proof.
  revert prev keys. induction segs as [|seg rest IH]; intros prev keys Hnd;
    [done|].
  simpl. apply IH. destruct prev; [|done].
  by apply NoDup_foldl_note_key.
Qed.

Lemma covers_range ln p seg :
  covers ln (p, seg) = true ↔ ln ∈ range (line p) (line_end seg).
Proof.
  rewrite elem_of_range. unfold covers. simpl.
  rewrite andb_true_iff, Z.leb_le, Z.ltb_lt. done.
Qed.

Lemma elem_of_activate_keys prev segs keys ln :
  ln ∈ activate_keys prev segs keys ↔
  ln ∈ keys ∨ active_on (option_list prev ++ segs) ln ≠ [].
Proof.
  revert prev keys. induction segs as [|seg rest IH]; intros prev keys.
  - simpl. destruct prev; simpl; split; try (by left); by intros [?|?].
  - simpl. rewrite IH. destruct prev as [p|]; simpl; [|done].
    unfold register_span_keys.
    rewrite elem_of_foldl_note_key, active_on_cons2, <-covers_range.
    destruct (covers ln (p, seg)); simpl.
    + split; [by intros _; right|intros _; left; by right].
    + split; [intros [[?|?]|?]|intros [?|?]]; try done; auto.
Qed.

(** The keys of [lineCounts] of a constructed object: each line that has
    a count once, and no other. *)
Lemma FileMapping_new_keys nm segs s :
  FileMapping_new nm segs = Some s →
  built_from nm segs (st_mapping s) ∧
  st_generators s = [] ∧
  NoDup (st_lineCounts_keys s) ∧
  ∀ ln, ln ∈ st_lineCounts_keys s ↔
        is_Some (lineCounts (st_mapping s) !! ln).
Proof.
  unfold FileMapping_new. intros Hs.
  destruct (FileMapping_init nm segs) as [m|] eqn:Hm; [|done].
  injection Hs as <-. simpl.
  apply FileMapping_init_inv in Hm.
  assert (NoDup (activate_keys None (segments m) [])) as Hnd.
  { apply NoDup_activate_keys. constructor. }
  unfold resolve_keys.
  rewrite (foldl_note_key_fresh [] _) by done. simpl.
  split_and!; [done..|].
  intros ln. rewrite elem_of_activate_keys, (built_lineCounts _ _ _ Hm).
  simpl. split.
  - intros [Hin|Hact]; [by apply elem_of_nil in Hin|].
    by apply top_count_is_Some.
  - intros Hsome. right. intros Hnil.
    rewrite Hnil, top_count_nil in Hsome. by destruct Hsome.
Qed.

Lemma dict_items_cons d k keys :
  dict_items d (k :: keys)
  = match d !! k with
    | Some x => (k, x) :: dict_items d keys
    | None => dict_items d keys
    end.
Proof. unfold dict_items. simpl. by destruct (d !! k). Qed.

Lemma elem_of_dict_items d keys ln c :
  (ln, c) ∈ dict_items d keys ↔ ln ∈ keys ∧ d !! ln = Some c.
Proof.
  induction keys as [|k keys IH].
  - split; [by intros ?%elem_of_nil|by intros [?%elem_of_nil _]].
  - rewrite dict_items_cons, elem_of_cons.
    destruct (d !! k) as [x|] eqn:Hk.
    + rewrite elem_of_cons, IH. split.
      * intros [[= -> ->]|[? ?]]; [by split; [left|]|by split; [right|]].
      * intros [[->|?] Hc]; [left; congruence|by right].
    + rewrite IH. split; [intros [? ?]; by split; [right|]|].
      intros [[->|?] Hc]; [congruence|done].
Qed.

Lemma NoDup_dict_items d keys : NoDup keys → NoDup (dict_items d keys).
Proof.
  induction 1 as [|k keys Hk _ IH]; [constructor|].
  rewrite dict_items_cons. destruct (d !! k); [|done].
  constructor; [|done]. by intros [? _]%elem_of_dict_items.
Qed.

Lemma lineCounts_items_with_generators s gens :
  lineCounts_items (with_generators s gens) = lineCounts_items s.
Proof. done. Qed.

Lemma with_generators_same s : with_generators s (st_generators s) = s.
Proof. by destruct s. Qed.

(** One [next()] leaves the mapping, the dict and every other generator
    as they are. *)
Lemma gen_next_store g s :
  ∃ gens, (gen_next g s).2 = with_generators s gens ∧
          length gens = length (st_generators s) ∧
          ∀ g', g' ≠ g → gens !! g' = st_generators s !! g'.
Proof.
  unfold gen_next.
  destruct (st_generators s !! g) as [taken|];
    [destruct (lineCounts_items s !! taken)|].
  - eexists. split; [done|]. split; [apply length_insert|].
    intros g' Hne. by apply list_lookup_insert_ne.
  - exists (st_generators s). by rewrite with_generators_same.
  - exists (st_generators s). by rewrite with_generators_same.
Qed.

Lemma drain_spec fuel g s taken :
  st_generators s !! g = Some taken →
  (taken ≤ length (lineCounts_items s))%nat →
  (length (lineCounts_items s) ≤ taken + fuel)%nat →
  drain fuel g s
  = (drop taken (lineCounts_items s),
     with_generators s
       (<[g := length (lineCounts_items s)]> (st_generators s))).
Proof.
  revert s taken. induction fuel as [|fuel IH]; intros s taken Hg Hle Hfuel.
  - assert (taken = length (lineCounts_items s)) as -> by lia.
    simpl. rewrite drop_all, list_insert_id by done.
    by rewrite with_generators_same.
  - simpl. unfold gen_next. rewrite Hg.
    destruct (lineCounts_items s !! taken) as [item|] eqn:Hpair.
    + pose proof (lookup_lt_Some _ _ _ Hpair) as Hlt.
      pose proof (lookup_lt_Some _ _ _ Hg) as Hglt.
      rewrite (IH _ (S taken)); simpl.
      * rewrite lineCounts_items_with_generators.
        rewrite (drop_S _ _ _ Hpair). unfold with_generators. simpl.
        by rewrite list_insert_insert_eq.
      * by apply list_lookup_insert_eq.
      * rewrite lineCounts_items_with_generators. lia.
      * rewrite lineCounts_items_with_generators. lia.
    + apply lookup_ge_None in Hpair.
      assert (taken = length (lineCounts_items s)) as -> by lia.
      rewrite drop_all, list_insert_id by done.
      by rewrite with_generators_same.
Qed.

Lemma st_generators_with_generators s gens :
  st_generators (with_generators s gens) = gens.
Proof. done. Qed.

Lemma with_generators_twice s gens gens' :
  with_generators (with_generators s gens) gens' = with_generators s gens'.
Proof. done. Qed.

Lemma countedLines_run s gens :
  countedLines (with_generators s gens)
  = (length gens, with_generators s (gens ++ [0%nat])).
Proof. done. Qed.

Lemma insert_snoc_last {A} (l : list A) x y :
  <[length l := y]> (l ++ [x]) = l ++ [y].
Proof. by rewrite insert_app_r_alt, Nat.sub_diag. Qed.

(** Iterating a generator that has not been advanced yet. *)
Lemma drain_fresh fuel s gens :
  (length (lineCounts_items s) ≤ fuel)%nat →
  drain fuel (length gens) (with_generators s (gens ++ [0%nat]))
  = (lineCounts_items s,
     with_generators s (gens ++ [length (lineCounts_items s)])).
Proof.
  intros Hfuel.
  rewrite (drain_spec fuel (length gens) _ 0).
  - rewrite lineCounts_items_with_generators, with_generators_twice.
    by rewrite st_generators_with_generators, insert_snoc_last.
  - rewrite st_generators_with_generators. by apply list_lookup_middle.
  - lia.
  - by rewrite lineCounts_items_with_generators.
Qed.

(** C8: a call of [countedLines] makes a new generator; iterated to
    exhaustion it yields the pairs of [lineCounts], each once, in the
    order of the dict, and is then exhausted.  The iteration advances that
    generator only: the mapping, the dict and the generators made before
    are as they were, so a second call, made after the first generator is
    used up, yields the same pairs again. *)
Theorem C8_countedLines_restartable nm segs s gens fuel :
  FileMapping_new nm segs = Some s →
  (size (lineCounts (st_mapping s)) ≤ fuel)%nat →
  ∃ pairs,
    iterate_twice fuel (with_generators s gens)
    = ((length gens, pairs), (S (length gens), pairs),
       with_generators s (gens ++ [length pairs; length pairs])) ∧
    pairs = lineCounts_items s ∧
    pairs ≡ₚ map_to_list (lineCounts (st_mapping s)) ∧
    NoDup pairs ∧
    (∀ ln c, (ln, c) ∈ pairs ↔ lineCounts (st_mapping s) !! ln = Some c) ∧
    (∀ g, (length gens ≤ g)%nat →
          (gen_next g
             (with_generators s (gens ++ [length pairs; length pairs]))).1
          = None).
Proof.
  intros Hs Hfuel.
  destruct (FileMapping_new_keys _ _ _ Hs) as (Hb & _ & Hnd & Hkeys).
  set (pairs := lineCounts_items s).
  assert (NoDup pairs) as Hndp by by apply NoDup_dict_items.
  assert (∀ ln c, (ln, c) ∈ pairs ↔ lineCounts (st_mapping s) !! ln = Some c)
    as Hin.
  { intros ln c. unfold pairs, lineCounts_items.
    rewrite elem_of_dict_items, Hkeys. split; [by intros [_ ?]|].
    intros Hc. split; [by eexists|done]. }
  assert (pairs ≡ₚ map_to_list (lineCounts (st_mapping s))) as Hperm.
  { apply NoDup_Permutation; [done|apply NoDup_map_to_list|].
    intros [ln c]. by rewrite Hin, elem_of_map_to_list. }
  assert (length pairs ≤ fuel)%nat as Hlen.
  { by rewrite Hperm, length_map_to_list. }
  exists pairs. split_and!; [|done..|].
  - unfold iterate_twice.
    rewrite countedLines_run.
    rewrite (drain_fresh fuel s gens) by done. fold pairs.
    rewrite countedLines_run.
    rewrite (drain_fresh fuel s (gens ++ [length pairs])) by done.
    fold pairs. rewrite length_app, <-app_assoc. simpl.
    by replace (length gens + 1)%nat with (S (length gens)) by lia.
  - intros g Hg. unfold gen_next.
    rewrite st_generators_with_generators, lookup_app_r by done.
    destruct (g - length gens)%nat as [|[|k]]; simpl; [| |done].
    + rewrite lineCounts_items_with_generators. fold pairs.
      by rewrite lookup_ge_None_2.
    + rewrite lineCounts_items_with_generators. fold pairs.
      by rewrite lookup_ge_None_2.
Qed.

Lemma C8_countedLines_restartable_witness :
  let a := mkSegment 1 1 0 true true in
  let b := mkSegment 3 1 7 true false in
  let m := mkFileMapping "a.c" [a; b]
             (<[1 := [a]]> (<[2 := [a]]> (<[3 := [a]]> ∅)))
             (<[1 := 0]> (<[2 := 0]> (<[3 := 0]> ∅))) 0 in
  let s := mkStore m [1; 2; 3] [] in
  ∃ pairs,
    iterate_twice 5 (with_generators s [1%nat])
    = ((1%nat, pairs), (2%nat, pairs),
       with_generators s ([1%nat] ++ [length pairs; length pairs])) ∧
    pairs = lineCounts_items s ∧
    pairs ≡ₚ map_to_list (lineCounts (st_mapping s)) ∧
    NoDup pairs ∧
    (∀ ln c, (ln, c) ∈ pairs ↔ lineCounts (st_mapping s) !! ln = Some c) ∧
    (∀ g, (1 ≤ g)%nat →
          (gen_next g
             (with_generators s ([1%nat] ++ [length pairs; length pairs]))).1
          = None).
Proof.
  intros a b m s.
  apply (C8_countedLines_restartable "a.c" [b; a] s [1%nat] 5).
  - by vm_compute.
  - vm_compute. lia.
Defined.

(** C9: for a line with registered segments [lineCount] returns the
    resolved count; for any other line it returns [None], a value and not
    an exception, which differs from the count 0. *)
Theorem C9_lineCount nm segs m ln :
  FileMapping_init nm segs = Some m →
  (∀ l, segmentsForLine m !! ln = Some l →
        l ≠ [] ∧
        ∃ top, head (prioritized l) = Some top ∧
               lineCount m ln = Some (count top)) ∧
  (segmentsForLine m !! ln = None → lineCount m ln = None) ∧
  (None : option Z) ≠ Some 0.
Proof.
  intros Hm. apply FileMapping_init_inv in Hm.
  unfold lineCount. rewrite (built_lineCounts _ _ _ Hm).
  rewrite (built_segmentsForLine _ _ _ Hm), segmentsForLine_lookup.
  destruct (active_on (segments m) ln) as [|s l'] eqn:Hact.
  - split_and!; done.
  - split_and!; [|done..]. intros l [= <-]. split; [done|].
    destruct (top_count_is_Some (s :: l')) as [c Hc]; [done|].
    unfold top_count in *.
    destruct (prioritized (s :: l')) as [|top rest]; [done|].
    by exists top.
Qed.

Lemma C9_lineCount_witness :
  let a := mkSegment 1 1 0 true true in
  let b := mkSegment 3 1 7 true false in
  let m := mkFileMapping "a.c" [a; b]
             (<[1 := [a]]> (<[2 := [a]]> (<[3 := [a]]> ∅)))
             (<[1 := 0]> (<[2 := 0]> (<[3 := 0]> ∅))) 0 in
  lineCount m 2 = Some 0 ∧ lineCount m 4 = None.
Proof.
  intros a b m.
  assert (FileMapping_init "a.c" [a; b] = Some m) as Hm by by vm_compute.
  split.
  - destruct (C9_lineCount "a.c" [a; b] m 2 Hm) as (Hsome & _ & _).
    destruct (Hsome [a]) as (_ & top & Htop & ->); [reflexivity|].
    by injection Htop as <-.
  - destruct (C9_lineCount "a.c" [a; b] m 4 Hm) as (_ & Hnone & _).
    by apply Hnone.
Defined.

(** ** Independence of [hasCount] *)

Lemma same_but_hasCount_position a b :
  same_but_hasCount a b → position a = position b.
Proof. intros (Hl & Hc & _). unfold position. by rewrite Hl, Hc. Qed.

Lemma same_but_hasCount_entry a b :
  same_but_hasCount a b → sort_by_entry a = sort_by_entry b.
Proof. intros (_ & _ & Hc & He). unfold sort_by_entry. by rewrite Hc, He. Qed.

Lemma pairwise_Forall2 s1 s2 :
  Forall2 same_but_hasCount s1 s2 →
  Forall2 pair_same_but_hasCount (pairwise s1) (pairwise s2).
Proof.
  induction 1 as [|a a' l l' Ha Hl IH]; [constructor|].
  destruct Hl as [|b b' l l' Hb Hl]; [constructor|].
  rewrite !pairwise_cons2. by constructor.
Qed.

Lemma active_on_Forall2 s1 s2 ln :
  Forall2 same_but_hasCount s1 s2 →
  Forall2 same_but_hasCount (active_on s1 ln) (active_on s2 ln).
Proof.
  intros Hs. unfold active_on. apply Forall2_fmap.
  eapply Forall2_impl.
  - apply (Forall2_filter pair_same_but_hasCount).
    + intros [a b] [a' b'] [(Hl & _) (Hl' & Hc' & _)]. simpl in *.
      unfold covers, line_end. simpl. by rewrite Hl, Hl', Hc'.
    + by apply pairwise_Forall2.
  - by intros ?? [? _].
Qed.

Lemma top_count_Forall2 l1 l2 :
  Forall2 same_but_hasCount l1 l2 → top_count l1 = top_count l2.
Proof.
  intros Hl. unfold top_count, prioritized.
  pose proof (sorted_Forall2 sort_by_entry entry_le same_but_hasCount
                same_but_hasCount_entry true l1 l2 Hl) as Hs.
  destruct Hs as [|top top' ?? (_ & _ & Hc & _) _]; [done|].
  simpl. by rewrite Hc.
Qed.

Lemma uncovered_Forall2 s1 s2 :
  Forall2 same_but_hasCount s1 s2 →
  Forall2 pair_same_but_hasCount (uncovered s1) (uncovered s2).
Proof.
  intros Hs. unfold uncovered. apply Forall2_filter.
  - intros [a b] [a' b'] [(_ & _ & Hc & He) _]. simpl in *.
    unfold is_uncovered. simpl. by rewrite Hc, He.
  - by apply pairwise_Forall2.
Qed.

Lemma seg_pair_to_region_Forall2 text_point l1 l2 :
  Forall2 pair_same_but_hasCount l1 l2 →
  seg_pair_to_region text_point <$> l1 = seg_pair_to_region text_point <$> l2.
Proof.
  induction 1 as [|[a b] [a' b'] l1 l2 [(Hl & Hc & _) (Hl' & Hc' & _)] _ IH];
    [done|].
  cbn [fst snd] in *. rewrite !fmap_cons, IH. cbn [seg_pair_to_region].
  by rewrite Hl, Hc, Hl', Hc'.
Qed.

(** [maxCount] is determined by [lineCounts]. *)
Lemma built_maxCount_unique nm1 segs1 m1 nm2 segs2 m2 :
  built_from nm1 segs1 m1 → built_from nm2 segs2 m2 →
  lineCounts m1 = lineCounts m2 → maxCount m1 = maxCount m2.
Proof.
  intros Hb1 Hb2 Heq.
  pose proof (built_maxCount_nonneg _ _ _ Hb1).
  pose proof (built_maxCount_nonneg _ _ _ Hb2).
  assert (maxCount m1 ≤ maxCount m2).
  { destruct (built_maxCount_attained _ _ _ Hb1) as [->|[ln Hln]]; [done|].
    rewrite Heq in Hln. by apply (built_maxCount_upper _ _ _ Hb2 ln). }
  assert (maxCount m2 ≤ maxCount m1).
  { destruct (built_maxCount_attained _ _ _ Hb2) as [->|[ln Hln]]; [done|].
    rewrite <-Heq in Hln. by apply (built_maxCount_upper _ _ _ Hb1 ln). }
  lia.
Qed.

(** C10: two inputs that differ in [hasCount] only give the same
    [lineCounts], the same [maxCount] and the same uncovered regions. *)
Theorem C10_hasCount_irrelevant (text_point : Z → Z → Z) nm l1 l2 :
  Forall2 same_but_hasCount l1 l2 →
  ∃ m1 m2,
    FileMapping_init nm l1 = Some m1 ∧
    FileMapping_init nm l2 = Some m2 ∧
    lineCounts m1 = lineCounts m2 ∧
    maxCount m1 = maxCount m2 ∧
    draw_uncovered_segments text_point m1
      = draw_uncovered_segments text_point m2.
Proof.
  intros Hl.
  destruct (FileMapping_init_built nm l1) as (m1 & Hm1 & Hb1).
  destruct (FileMapping_init_built nm l2) as (m2 & Hm2 & Hb2).
  exists m1, m2.
  assert (Forall2 same_but_hasCount (segments m1) (segments m2)) as Hs.
  { rewrite (built_segments _ _ _ Hb1), (built_segments _ _ _ Hb2).
    by apply sorted_Forall2; [apply same_but_hasCount_position|]. }
  assert (lineCounts m1 = lineCounts m2) as Hlc.
  { apply map_eq. intros ln.
    rewrite (built_lineCounts _ _ _ Hb1), (built_lineCounts _ _ _ Hb2).
    by apply top_count_Forall2, active_on_Forall2. }
  split_and!; [done..| |].
  - by eapply built_maxCount_unique.
  - unfold draw_uncovered_segments.
    by apply seg_pair_to_region_Forall2, uncovered_Forall2.
Qed.

Lemma C10_hasCount_irrelevant_witness :
  ∃ m1 m2,
    FileMapping_init "a.c"
      [mkSegment 1 1 0 true true; mkSegment 3 1 7 false false] = Some m1 ∧
    FileMapping_init "a.c"
      [mkSegment 1 1 0 false true; mkSegment 3 1 7 true false] = Some m2 ∧
    lineCounts m1 = lineCounts m2 ∧
    maxCount m1 = maxCount m2 ∧
    draw_uncovered_segments (λ row col, 100 * row + col) m1
      = draw_uncovered_segments (λ row col, 100 * row + col) m2.
Proof.
  apply C10_hasCount_irrelevant.
  repeat constructor.
Defined.

(** ** Further properties of the constructor *)

Lemma sorted_of_StronglySorted {A K} (key : A → K) (le : K → K → bool) r l :
  StronglySorted (before key le r) l → sorted key le r l = l.
Proof.
  induction 1 as [|x l Hl IH Hx]; [done|].
  cbn [sorted foldr]. unfold sorted in IH. rewrite IH.
  destruct Hx as [|y l Hy _]; [done|].
  simpl. unfold before in Hy. by rewrite Hy.
Qed.

Lemma pos_le_line a b :
  pos_le (position a) (position b) = true → line a ≤ line b.
Proof. rewrite pos_le_spec. simpl. lia. Qed.

Lemma built_segments_sorted nm segs m :
  built_from nm segs m →
  StronglySorted (before position pos_le false) (segments m).
Proof.
  intros Hb. rewrite (built_segments _ _ _ Hb).
  apply sorted_StronglySorted; [apply pos_le_total|apply pos_le_trans].
Qed.

(** X1: the stored segments are the input segments, sorted ascending by
    [(line, col)], and segments at the same position keep their input
    order. *)
Theorem X1_segments_sorted_stable nm segs :
  ∃ m, FileMapping_init nm segs = Some m ∧
       segments m ≡ₚ segs ∧
       StronglySorted
         (λ a b, pos_le (position a) (position b) = true) (segments m) ∧
       ∀ p, filter (λ s, position s = p) (segments m)
            = filter (λ s, position s = p) segs.
Proof.
  destruct (FileMapping_init_built nm segs) as (m & Hm & Hb).
  exists m. split_and!; [done| | |].
  - rewrite (built_segments _ _ _ Hb). apply sorted_perm.
  - apply (built_segments_sorted _ _ _ Hb).
  - intros p. rewrite (built_segments _ _ _ Hb).
    apply sorted_stable. apply pos_le_total.
Qed.

(** X2: building a mapping again from the segments a mapping stores gives
    the same mapping. *)
Theorem X2_rebuild_from_stored_segments nm segs m :
  FileMapping_init nm segs = Some m →
  FileMapping_init nm (segments m) = Some m.
Proof.
  intros Hm. pose proof (FileMapping_init_inv _ _ _ Hm) as Hb.
  rewrite <-Hm. unfold FileMapping_init.
  rewrite (built_segments _ _ _ Hb).
  rewrite (sorted_of_StronglySorted position pos_le false
             (sorted position pos_le false segs)); [done|].
  apply sorted_StronglySorted; [apply pos_le_total|apply pos_le_trans].
Qed.

Lemma X2_rebuild_from_stored_segments_witness :
  let a := mkSegment 1 1 0 true true in
  let b := mkSegment 3 1 7 true false in
  let m := mkFileMapping "a.c" [a; b]
             (<[1 := [a]]> (<[2 := [a]]> (<[3 := [a]]> ∅)))
             (<[1 := 0]> (<[2 := 0]> (<[3 := 0]> ∅))) 0 in
  FileMapping_init "a.c" [a; b] = Some m.
Proof.
  intros a b m.
  apply (X2_rebuild_from_stored_segments "a.c" [b; a] m).
  by vm_compute.
Defined.

Lemma elem_of_pairwise_lookup segs a b :
  (a, b) ∈ pairwise segs ↔
  ∃ i : nat, segs !! i = Some a ∧ segs !! S i = Some b.
Proof.
  induction segs as [|x [|y rest] IH].
  - split; [by intros ?%elem_of_nil|by intros (i & ? & _)].
  - split; [by intros ?%elem_of_nil|].
    intros ([|i] & _ & Hb); done.
  - rewrite pairwise_cons2, elem_of_cons, IH. split.
    + intros [[= -> ->]|(i & Ha & Hb)]; [by exists 0%nat|by exists (S i)].
    + intros ([|i] & Ha & Hb); [left|right; by exists i].
      simpl in *. congruence.
Qed.

Lemma elem_of_active_on segs ln s :
  s ∈ active_on segs ln ↔
  ∃ cur, (s, cur) ∈ pairwise segs ∧ line s ≤ ln < line_end cur.
Proof.
  unfold active_on. rewrite list_elem_of_fmap. split.
  - intros ([a b] & -> & [Hc Hin]%list_elem_of_filter).
    exists b. split; [done|]. unfold covers in Hc. simpl in *.
    apply andb_true_iff in Hc as [H1%Z.leb_le H2%Z.ltb_lt]. lia.
  - intros (cur & Hin & Hrange). exists (s, cur). split; [done|].
    apply list_elem_of_filter. split; [|done]. unfold covers. simpl.
    apply andb_true_iff. split; [apply Z.leb_le|apply Z.ltb_lt]; lia.
Qed.

(** X3: a segment is registered for a line exactly when it is followed in
    the sorted list by a segment [cur] with the line in
    [range(s.line, end)], where [end] is [cur.line + 1] if [cur.col > 0]
    and [cur.line] otherwise. *)
Theorem X3_registered_segments nm segs m ln s :
  FileMapping_init nm segs = Some m →
  (s ∈ default [] (segmentsForLine m !! ln) ↔
   ∃ (i : nat) cur,
     segments m !! i = Some s ∧ segments m !! S i = Some cur ∧
     line s ≤ ln < (if 0 <? col cur then line cur + 1 else line cur)).
Proof.
  intros Hm. apply FileMapping_init_inv in Hm.
  rewrite (built_segmentsForLine _ _ _ Hm), segmentsForLine_lookup.
  assert (default [] match active_on (segments m) ln with
                     | [] => None | l => Some l end
          = active_on (segments m) ln) as ->.
  { by destruct (active_on (segments m) ln). }
  rewrite elem_of_active_on. split.
  - intros (cur & (i & ? & ?)%elem_of_pairwise_lookup & ?). by exists i, cur.
  - intros (i & cur & ? & ? & ?). exists cur. split; [|done].
    apply elem_of_pairwise_lookup. by exists i.
Qed.

Lemma X3_registered_segments_witness :
  let a := mkSegment 1 1 0 true true in
  let b := mkSegment 3 0 7 true false in
  let m := mkFileMapping "a.c" [a; b]
             (<[1 := [a]]> (<[2 := [a]]> ∅))
             (<[1 := 0]> (<[2 := 0]> ∅)) 0 in
  a ∈ default [] (segmentsForLine m !! 2) ∧
  ¬ a ∈ default [] (segmentsForLine m !! 3).
Proof.
  intros a b m.
  assert (FileMapping_init "a.c" [a; b] = Some m) as Hm by by vm_compute.
  split.
  - apply (X3_registered_segments "a.c" [a; b] m 2 a Hm).
    exists 0%nat, b. by vm_compute.
  - intros Hin.
    apply (X3_registered_segments "a.c" [a; b] m 3 a Hm) in Hin
      as (i & cur & Ha & Hb & Hr).
    destruct i as [|[|i]]; simpl in *; [|done..].
    injection Hb as <-. simpl in Hr. lia.
Defined.

Lemma line_end_le seg : line_end seg ≤ line seg + 1.
Proof. unfold line_end. destruct (0 <? col seg); lia. Qed.

Lemma StronglySorted_head_le segs first s :
  StronglySorted (before position pos_le false) segs →
  head segs = Some first → s ∈ segs → line first ≤ line s.
Proof.
  intros Hs Hh Hin. destruct segs as [|x rest]; [done|].
  injection Hh as ->. apply StronglySorted_cons in Hs as [Hall _].
  apply elem_of_cons in Hin as [->|Hin]; [done|].
  eapply Forall_forall in Hall; [|done]. by apply pos_le_line.
Qed.

Lemma StronglySorted_last_le segs lst s :
  StronglySorted (before position pos_le false) segs →
  last segs = Some lst → s ∈ segs → line s ≤ line lst.
Proof.
  intros Hs Hl Hin. apply last_Some in Hl as [l' ->].
  apply StronglySorted_app in Hs as (Hcross & _ & _).
  apply elem_of_app in Hin as [Hin|Hin].
  - assert (lst ∈ [lst]) as Hlst by left.
    apply pos_le_line. exact (Hcross s lst Hin Hlst).
  - apply list_elem_of_singleton in Hin as ->. done.
Qed.

Lemma lineCounts_is_Some nm segs m ln :
  built_from nm segs m →
  is_Some (lineCounts m !! ln) ↔ active_on (segments m) ln ≠ [].
Proof.
  intros Hb. rewrite (built_lineCounts _ _ _ Hb). split.
  - intros Hsome Hnil. rewrite Hnil, top_count_nil in Hsome.
    by destruct Hsome.
  - apply top_count_is_Some.
Qed.

Lemma counted_line_bounds nm segs m ln :
  built_from nm segs m →
  is_Some (lineCounts m !! ln) →
  ∃ first lst,
    head (segments m) = Some first ∧ last (segments m) = Some lst ∧
    line first ≤ ln ≤ line lst.
Proof.
  intros Hm Hsome.
  apply (lineCounts_is_Some _ _ _ _ Hm) in Hsome.
  destruct (active_on (segments m) ln) as [|s l] eqn:Hact; [done|].
  assert (s ∈ active_on (segments m) ln) as Hs by (rewrite Hact; left).
  apply elem_of_active_on in Hs as (cur & Hpair & Hrange).
  apply elem_of_pairwise in Hpair as [Hs Hcur]. simpl in *.
  assert (cur ∈ segments m) as Hcur'.
  { destruct (segments m); [done|by right]. }
  pose proof (built_segments_sorted _ _ _ Hm) as Hsorted.
  destruct (segments m) as [|first rest] eqn:Hsegs.
  { by apply elem_of_nil in Hs. }
  destruct (last (first :: rest)) as [lst|] eqn:Hlast.
  2:{ by apply last_None in Hlast. }
  exists first, lst. split_and!; [done..| |].
  - pose proof (StronglySorted_head_le _ first s Hsorted eq_refl Hs). lia.
  - pose proof (StronglySorted_last_le _ lst cur Hsorted Hlast Hcur').
    pose proof (line_end_le cur). lia.
Qed.

(** X4: every line that gets a count lies between the line of the first
    and the line of the last stored segment. *)
Theorem X4_counted_lines_bounded nm segs m ln :
  FileMapping_init nm segs = Some m →
  is_Some (lineCounts m !! ln) →
  ∃ first lst,
    head (segments m) = Some first ∧ last (segments m) = Some lst ∧
    line first ≤ ln ≤ line lst.
Proof.
  intros Hm. apply counted_line_bounds with nm segs.
  by apply FileMapping_init_inv.
Qed.

Lemma X4_counted_lines_bounded_witness :
  let a := mkSegment 1 1 0 true true in
  let b := mkSegment 3 1 7 true false in
  let m := mkFileMapping "a.c" [a; b]
             (<[1 := [a]]> (<[2 := [a]]> (<[3 := [a]]> ∅)))
             (<[1 := 0]> (<[2 := 0]> (<[3 := 0]> ∅))) 0 in
  ∃ first lst,
    head (segments m) = Some first ∧ last (segments m) = Some lst ∧
    line first ≤ 2 ≤ line lst.
Proof.
  intros a b m.
  apply (X4_counted_lines_bounded "a.c" [a; b] m 2).
  - by vm_compute.
  - exists 0. by vm_compute.
Defined.

Lemma active_on_chain a l lst ln :
  l ≠ [] →
  Forall (λ s, 1 ≤ col s) l →
  last (a :: l) = Some lst →
  line a ≤ ln ≤ line lst →
  active_on (a :: l) ln ≠ [].
Proof.
  revert a. induction l as [|b rest IH]; intros a Hne Hcol Hlast Hrange;
    [done|].
  apply Forall_cons in Hcol as [Hb Hcol].
  rewrite active_on_cons2. unfold covers. simpl.
  rewrite (line_end_wellformed b Hb).
  destruct (decide (ln ≤ line b)) as [Hle|Hgt].
  - replace (line a <=? ln) with true by (symmetry; apply Z.leb_le; lia).
    by replace (ln <? line b + 1) with true
      by (symmetry; apply Z.ltb_lt; lia).
  - intros [_ Hnil]%app_eq_nil. revert Hnil. apply IH; [|done| |].
    + intros ->. simpl in Hlast. injection Hlast as <-. lia.
    + by rewrite last_cons_cons in Hlast.
    + lia.
Qed.

(** X5: when there are at least two segments and every column is at
    least 1, the lines that get a count are exactly the lines from the line
    of the first stored segment to the line of the last one: no line in
    between is left without a count. *)
Theorem X5_counted_lines_contiguous nm segs m first lst ln :
  Forall (λ s, 1 ≤ col s) segs →
  (2 ≤ length segs)%nat →
  FileMapping_init nm segs = Some m →
  head (segments m) = Some first →
  last (segments m) = Some lst →
  (is_Some (lineCounts m !! ln) ↔ line first ≤ ln ≤ line lst).
Proof.
  intros Hcol Hlen Hm Hhead Hlast.
  pose proof (FileMapping_init_inv _ _ _ Hm) as Hb. split.
  - intros Hsome.
    destruct (counted_line_bounds nm segs m ln Hb Hsome)
      as (f & l & Hf & Hl & ?).
    congruence.
  - intros Hrange. apply (lineCounts_is_Some _ _ _ _ Hb).
    assert (Forall (λ s, 1 ≤ col s) (segments m)) as Hcol'.
    { rewrite (built_segments _ _ _ Hb). by rewrite sorted_perm. }
    assert (length (segments m) = length segs) as Hlen'.
    { rewrite (built_segments _ _ _ Hb). by rewrite sorted_perm. }
    destruct (segments m) as [|a [|b rest]]; simpl in Hlen'; [lia..|].
    injection Hhead as ->.
    apply Forall_cons in Hcol' as [_ Hcol'].
    by apply (active_on_chain first (b :: rest) lst).
Qed.

Lemma X5_counted_lines_contiguous_witness :
  let a := mkSegment 1 4 0 true true in
  let b := mkSegment 2 7 3 true true in
  let c := mkSegment 6 1 7 true false in
  let m := mkFileMapping "a.c" [a; b; c]
             (<[1 := [a]]> (<[2 := [a; b]]> (<[3 := [b]]> (<[4 := [b]]>
                (<[5 := [b]]> (<[6 := [b]]> ∅))))))
             (<[1 := 0]> (<[2 := 3]> (<[3 := 3]> (<[4 := 3]>
                (<[5 := 3]> (<[6 := 3]> ∅)))))) 3 in
  is_Some (lineCounts m !! 4) ↔ line a ≤ 4 ≤ line c.
Proof.
  intros a b c m.
  apply (X5_counted_lines_contiguous "a.c" [c; a; b] m a c 4).
  - repeat constructor; by vm_compute.
  - simpl. lia.
  - by vm_compute.
  - reflexivity.
  - reflexivity.
Defined.

Lemma lineCounts_top nm segs m ln c :
  built_from nm segs m →
  lineCounts m !! ln = Some c →
  ∃ top, top ∈ active_on (segments m) ln ∧ count top = c ∧
         ∀ s, s ∈ active_on (segments m) ln →
              entry_le (sort_by_entry s) (sort_by_entry top) = true.
Proof.
  intros Hb Hc. rewrite (built_lineCounts _ _ _ Hb) in Hc.
  unfold top_count, prioritized in Hc.
  destruct (sorted sort_by_entry entry_le true (active_on (segments m) ln))
    as [|top rest] eqn:Hs; [done|].
  injection Hc as <-.
  apply (sorted_head sort_by_entry entry_le entry_le_total entry_le_trans)
    in Hs as [Hin Hmax].
  by exists top.
Qed.

(** X6: a stored count is never invented: it is the count of an input
    segment that starts on that line or on an earlier one; and [maxCount]
    is 0 or the count of an input segment. *)
Theorem X6_counts_come_from_segments nm segs m :
  FileMapping_init nm segs = Some m →
  (∀ ln c, lineCounts m !! ln = Some c →
           ∃ s, s ∈ segs ∧ count s = c ∧ line s ≤ ln) ∧
  (maxCount m = 0 ∨ ∃ s, s ∈ segs ∧ count s = maxCount m).
Proof.
  intros Hm. apply FileMapping_init_inv in Hm.
  assert (∀ ln c, lineCounts m !! ln = Some c →
                  ∃ s, s ∈ segs ∧ count s = c ∧ line s ≤ ln) as Hfrom.
  { intros ln c Hc.
    destruct (lineCounts_top _ _ _ _ _ Hm Hc) as (top & Hin & <- & _).
    exists top. split_and!; [|done|].
    - apply active_on_subseteq, removelast_subseteq in Hin.
      rewrite (built_segments _ _ _ Hm) in Hin.
      by rewrite sorted_perm in Hin.
    - apply elem_of_active_on in Hin as (cur & _ & ?). lia. }
  split; [done|].
  destruct (built_maxCount_attained _ _ _ Hm) as [?|[ln Hln]]; [by left|].
  right. destruct (Hfrom ln _ Hln) as (s & ? & ? & _). by exists s.
Qed.

Lemma X6_counts_come_from_segments_witness :
  let a := mkSegment 1 1 0 true true in
  let b := mkSegment 3 1 7 true false in
  let m := mkFileMapping "a.c" [a; b]
             (<[1 := [a]]> (<[2 := [a]]> (<[3 := [a]]> ∅)))
             (<[1 := 0]> (<[2 := 0]> (<[3 := 0]> ∅))) 0 in
  ∃ s, s ∈ [b; a] ∧ count s = 0 ∧ line s ≤ 2.
Proof.
  intros a b m.
  assert (FileMapping_init "a.c" [b; a] = Some m) as Hm by by vm_compute.
  apply (proj1 (X6_counts_come_from_segments "a.c" [b; a] m Hm) 2 0).
  by vm_compute.
Defined.

(** X7: when a region entry is registered for a line, the count of the
    line is the largest count among the region entries registered for it,
    whatever the counts of the other segments; when none is, it is the
    largest count among all segments registered for it. *)
Theorem X7_region_entries_dominate nm segs m ln l c :
  FileMapping_init nm segs = Some m →
  segmentsForLine m !! ln = Some l →
  lineCounts m !! ln = Some c →
  ((∃ s, s ∈ l ∧ isRegionEntry s = true) →
     (∃ s, s ∈ l ∧ isRegionEntry s = true ∧ count s = c) ∧
     (∀ s, s ∈ l → isRegionEntry s = true → count s ≤ c)) ∧
  ((∀ s, s ∈ l → isRegionEntry s = false) →
     (∃ s, s ∈ l ∧ count s = c) ∧ (∀ s, s ∈ l → count s ≤ c)).
Proof.
  intros Hm Hl Hc. apply FileMapping_init_inv in Hm.
  destruct (lineCounts_top _ _ _ _ _ Hm Hc) as (top & Hin & <- & Hmax).
  rewrite (built_segmentsForLine _ _ _ Hm), segmentsForLine_lookup in Hl.
  assert (active_on (segments m) ln = l) as Hact.
  { destruct (active_on (segments m) ln); by simplify_eq. }
  rewrite Hact in Hin, Hmax. clear Hact Hl Hc.
  split.
  - intros (e & He & Hentry).
    pose proof (Hmax e He) as Hle. apply entry_le_spec in Hle.
    unfold sort_by_entry in Hle. simpl in Hle. rewrite Hentry in Hle.
    assert (isRegionEntry top = true) as Htop.
    { destruct Hle as [[? _]|[? _]]; congruence. }
    split; [by exists top|].
    intros s Hs Hse. specialize (Hmax s Hs).
    apply entry_le_spec in Hmax. unfold sort_by_entry in Hmax.
    simpl in Hmax. rewrite Hse, Htop in Hmax.
    destruct Hmax as [[? _]|[_ ?]]; [done|lia].
  - intros Hnone. split; [by exists top|].
    intros s Hs. pose proof (Hmax s Hs) as Hle.
    apply entry_le_spec in Hle. unfold sort_by_entry in Hle. simpl in Hle.
    rewrite (Hnone s Hs), (Hnone top Hin) in Hle.
    destruct Hle as [[_ ?]|[_ ?]]; [done|lia].
Qed.

Lemma X7_region_entries_dominate_witness :
  let a := mkSegment 1 1 9 true false in
  let b := mkSegment 1 5 2 true true in
  let c := mkSegment 2 1 0 true false in
  let m := mkFileMapping "a.c" [a; b; c]
             (<[1 := [a; b]]> (<[2 := [b]]> ∅))
             (<[1 := 2]> (<[2 := 2]> ∅)) 2 in
  (∃ s, s ∈ [a; b] ∧ isRegionEntry s = true ∧ count s = 2) ∧
  (∀ s, s ∈ [a; b] → isRegionEntry s = true → count s ≤ 2).
Proof.
  intros a b c m.
  assert (FileMapping_init "a.c" [a; b; c] = Some m) as Hm by by vm_compute.
  apply (proj1 (X7_region_entries_dominate "a.c" [a; b; c] m 1 [a; b] 2
                  Hm eq_refl eq_refl)).
  exists b. split; [right; left|reflexivity].
Defined.

Lemma pairwise_related (R : relation Segment) segs a b :
  StronglySorted R segs → (a, b) ∈ pairwise segs → R a b.
Proof.
  induction 1 as [|x l Hl IH Hx]; [by intros ?%elem_of_nil|].
  destruct l as [|y rest]; [by intros ?%elem_of_nil|].
  rewrite pairwise_cons2. intros [[= -> ->]|Hin]%elem_of_cons; [|by apply IH].
  by apply Forall_cons in Hx as [? _].
Qed.

Lemma length_pairwise segs : length (pairwise segs) = pred (length segs).
Proof.
  induction segs as [|a [|b rest] IH]; [done..|].
  rewrite pairwise_cons2. simpl in *. by rewrite IH.
Qed.

(** X8: an uncovered region never ends before it starts: in every pair
    kept, the position of the first segment is not after the position of
    the second; and there is at most one region per segment but the
    last. *)
Theorem X8_regions_well_ordered (text_point : Z → Z → Z) nm segs :
  ∃ m, FileMapping_init nm segs = Some m ∧
       Forall (λ pair, pos_le (position pair.1) (position pair.2) = true)
              (uncovered (segments m)) ∧
       (length (draw_uncovered_segments text_point m)
        ≤ pred (length segs))%nat.
Proof.
  destruct (FileMapping_init_built nm segs) as (m & Hm & Hb).
  exists m. split_and!; [done| |].
  - apply Forall_forall. intros [a b] [_ Hin]%list_elem_of_filter.
    apply (pairwise_related (before position pos_le false) (segments m));
      [|done].
    by eapply built_segments_sorted.
  - unfold draw_uncovered_segments, uncovered.
    rewrite length_fmap.
    etrans; [apply length_filter|].
    rewrite length_pairwise, (built_segments _ _ _ Hb).
    by rewrite sorted_perm.
Qed.

Lemma insert_sorted_snoc {A K} (key : A → K) (le : K → K → bool) r x l z :
  precedes key le r x z = true →
  insert_sorted key le r x (l ++ [z]) = insert_sorted key le r x l ++ [z].
Proof.
  intros Hxz. induction l as [|y l IH]; simpl.
  - by rewrite Hxz.
  - destruct (precedes key le r x y); [done|]. by rewrite IH.
Qed.

Lemma sorted_snoc {A K} (key : A → K) (le : K → K → bool) r l z :
  (∀ x, x ∈ l → precedes key le r x z = true) →
  sorted key le r (l ++ [z]) = sorted key le r l ++ [z].
Proof.
  induction l as [|x l IH]; intros Hall; [done|].
  cbn [app sorted foldr]. unfold sorted in IH. rewrite IH.
  - apply insert_sorted_snoc, Hall. left.
  - intros y Hy. apply Hall. by right.
Qed.

Lemma pairwise_snoc segs z :
  pairwise (segs ++ [z])
  = pairwise segs ++ match last segs with
                     | Some lst => [(lst, z)]
                     | None => []
                     end.
Proof.
  induction segs as [|a [|b rest] IH]; [done..|].
  cbn [app] in *. rewrite !pairwise_cons2, IH.
  by rewrite last_cons_cons.
Qed.

(** X9: a segment appended at the end of the input list whose position
    is at or after the position of every other one is stored last, and it
    does not change the count of any line before the line of the segment
    that was last until then. *)
Theorem X9_append_keeps_earlier_lines nm segs new m m' lst ln :
  (∀ s, s ∈ segs → pos_le (position s) (position new) = true) →
  FileMapping_init nm segs = Some m →
  FileMapping_init nm (segs ++ [new]) = Some m' →
  last (segments m) = Some lst →
  ln < line lst →
  segments m' = segments m ++ [new] ∧
  lineCounts m' !! ln = lineCounts m !! ln.
Proof.
  intros Hnew Hm Hm' Hlast Hln.
  apply FileMapping_init_inv in Hm. apply FileMapping_init_inv in Hm'.
  assert (segments m' = segments m ++ [new]) as Hsegs.
  { rewrite (built_segments _ _ _ Hm'), (built_segments _ _ _ Hm).
    by apply sorted_snoc. }
  split; [done|].
  rewrite (built_lineCounts _ _ _ Hm'), (built_lineCounts _ _ _ Hm).
  f_equal. unfold active_on.
  rewrite Hsegs, pairwise_snoc, Hlast, filter_app.
  rewrite (filter_cons _ (lst, new)), decide_False.
  - by rewrite filter_nil, app_nil_r.
  - unfold covers. simpl.
    replace (line lst <=? ln) with false; [done|].
    symmetry. apply Z.leb_gt. lia.
Qed.

Lemma X9_append_keeps_earlier_lines_witness :
  let a := mkSegment 1 1 0 true true in
  let b := mkSegment 3 1 7 true false in
  let c := mkSegment 3 1 2 true true in
  let m := mkFileMapping "a.c" [a; b]
             (<[1 := [a]]> (<[2 := [a]]> (<[3 := [a]]> ∅)))
             (<[1 := 0]> (<[2 := 0]> (<[3 := 0]> ∅))) 0 in
  let m' := mkFileMapping "a.c" [a; b; c]
             (<[1 := [a]]> (<[2 := [a]]> (<[3 := [a; b]]> ∅)))
             (<[1 := 0]> (<[2 := 0]> (<[3 := 0]> ∅))) 0 in
  segments m' = segments m ++ [c] ∧
  lineCounts m' !! 2 = lineCounts m !! 2.
Proof.
  intros a b c m m'.
  apply (X9_append_keeps_earlier_lines "a.c" [b; a] c m m' b 2).
  - intros s Hs.
    repeat (apply elem_of_cons in Hs as [->|Hs]); [done..|].
    by apply elem_of_nil in Hs.
  - by vm_compute.
  - by vm_compute.
  - reflexivity.
  - simpl. lia.
Defined.

(** ** The line labels of [draw_line_counts] *)

Lemma pretty_N_go_length_mono (x y : N) s t :
  (x ≤ y)%N →
  (String.length (pretty_N_go x s) + String.length t
   ≤ String.length (pretty_N_go y t) + String.length s)%nat.
Proof.
  revert x s t. induction (N.lt_wf_0 y) as [y _ IH]; intros x s t Hxy.
  destruct (decide (y = 0)%N) as [->|Hy].
  { assert (x = 0%N) as -> by lia. rewrite !pretty_N_go_0. lia. }
  rewrite (pretty_N_go_step y) by lia.
  destruct (decide (x = 0)%N) as [->|Hx].
  - rewrite pretty_N_go_0.
    pose proof (IH (y `div` 10)%N ltac:(apply N.div_lt; lia) 0%N
                  (String (pretty_N_char (y `mod` 10)) t)
                  (String (pretty_N_char (y `mod` 10)) t)
                  (N.le_0_l _)) as Hle.
    rewrite pretty_N_go_0 in Hle. simpl in Hle. lia.
  - rewrite (pretty_N_go_step x) by lia.
    pose proof (IH (y `div` 10)%N ltac:(apply N.div_lt; lia)
                  (x `div` 10)%N
                  (String (pretty_N_char (x `mod` 10)) s)
                  (String (pretty_N_char (y `mod` 10)) t)
                  ltac:(by apply N.Div0.div_le_mono)) as Hle.
    simpl in Hle. lia.
Qed.

Lemma str_positive_length p : (1 ≤ String.length (pretty (Npos p)))%nat.
Proof.
  unfold pretty, pretty_N. rewrite decide_False by done.
  rewrite pretty_N_go_step by lia.
  pose proof (pretty_N_go_length_mono 0 (N.pos p `div` 10)
                (String (pretty_N_char (N.pos p `mod` 10)) "")
                (String (pretty_N_char (N.pos p `mod` 10)) "")
                (N.le_0_l _)) as Hle.
  rewrite pretty_N_go_0 in Hle. simpl in *. lia.
Qed.

(** A larger non-negative integer does not print shorter. *)
Lemma len_str_mono a b : 0 ≤ a ≤ b → len (str a) ≤ len (str b).
Proof.
  intros [Ha Hab]. unfold len, str. apply inj_le.
  destruct a as [|p|p]; [| |lia].
  - destruct b as [|q|q]; [done| |lia].
    apply (str_positive_length q).
  - destruct b as [|q|q]; [lia| |lia].
    unfold pretty, pretty_Z, pretty, pretty_positive, pretty, pretty_N.
    rewrite !decide_False by done.
    pose proof (pretty_N_go_length_mono (N.pos p) (N.pos q) "" ""
                  ltac:(lia)) as Hle.
    simpl in Hle. lia.
Qed.

Lemma max_len_ge_4 m : 4 ≤ max_len m.
Proof. unfold max_len. lia. Qed.

(** X10: for segments with non-negative counts no label is wider than
    the gutter: the digits of a line's count are at most [max_len] long,
    so the label is [max_len] minus that many [&nbsp;], the digits and one
    more [&nbsp;]; a line without a count gets [max_len] of them and no
    digits. *)
Theorem X10_count_labels_fit nm segs m ln :
  Forall (λ s, 0 ≤ count s) segs →
  FileMapping_init nm segs = Some m →
  ∃ pad : nat,
    padded_count (max_len m) (lineCount m ln)
    = repeat_string "&nbsp;" pad +:+ count_digits (lineCount m ln)
        +:+ "&nbsp;" ∧
    Z.of_nat pad + len (count_digits (lineCount m ln)) = max_len m ∧
    (lineCount m ln = None → Z.of_nat pad = max_len m).
Proof.
  intros Hnonneg Hm. apply FileMapping_init_inv in Hm.
  assert (len (count_digits (lineCount m ln)) ≤ max_len m) as Hfit.
  { unfold lineCount. destruct (lineCounts m !! ln) as [c|] eqn:Hc; simpl.
    - destruct (built_count_from_input _ _ _ _ _ Hm Hc) as (s & Hs & <-).
      rewrite Forall_forall in Hnonneg. specialize (Hnonneg s Hs).
      pose proof (built_maxCount_upper _ _ _ Hm ln _ Hc).
      pose proof (len_str_mono (count s) (maxCount m) ltac:(lia)).
      unfold max_len. lia.
    - pose proof (max_len_ge_4 m). unfold len. simpl. lia. }
  exists (Z.to_nat (max_len m - len (count_digits (lineCount m ln)))).
  split_and!; [done|lia|].
  intros ->. simpl. unfold len. simpl. pose proof (max_len_ge_4 m). lia.
Qed.

Lemma X10_count_labels_fit_witness :
  let a := mkSegment 1 1 12345 true true in
  let b := mkSegment 2 1 7 true true in
  let c := mkSegment 3 1 0 true false in
  let m := mkFileMapping "a.c" [a; b; c]
             (<[1 := [a]]> (<[2 := [a; b]]> (<[3 := [b]]> ∅)))
             (<[1 := 12345]> (<[2 := 12345]> (<[3 := 7]> ∅))) 12345 in
  ∃ pad : nat,
    padded_count (max_len m) (lineCount m 3)
    = repeat_string "&nbsp;" pad +:+ count_digits (lineCount m 3)
        +:+ "&nbsp;" ∧
    Z.of_nat pad + len (count_digits (lineCount m 3)) = max_len m ∧
    (lineCount m 3 = None → Z.of_nat pad = max_len m).
Proof.
  intros a b c m.
  apply (X10_count_labels_fit "a.c" [a; b; c] m 3).
  - repeat constructor; by vm_compute.
  - by vm_compute.
Defined.

(** ** The command: what it does to the view *)

Lemma cmd_bind_ret {A B} (a : A) (k : A → cmd B) : mret a ≫= k = k a.
Proof.
  unfold mbind, cmd_mbind, mret, cmd_mret, cmd_ret, cmd_bind.
  by destruct (k a).
Qed.

Lemma cmd_bind_emit {B} (e : event) (k : unit → cmd B) :
  emit e ≫= k = (e :: (k tt).1, (k tt).2).
Proof.
  unfold mbind, cmd_mbind, emit, cmd_bind. by destruct (k tt).
Qed.

Lemma range_lookup start stop (i : nat) :
  (i < Z.to_nat (stop - start))%nat →
  range start stop !! i = Some (start + Z.of_nat i).
Proof. intros Hi. unfold range. apply lookup_seqZ. lia. Qed.

Lemma length_range start stop :
  length (range start stop) = Z.to_nat (stop - start).
Proof. unfold range. apply length_seqZ. Qed.

(** X11: [show_coverage] makes the view read-only and replaces the
    uncovered regions before it looks up the two colours.  When the colour
    scheme has both, it ends by giving the phantom set one phantom per line
    index [0 .. tot_lines], in line order; when one is missing it raises
    [KeyError] at that point, with the view already read-only, the regions
    already drawn and no phantom set. *)
Theorem X11_show_coverage_outcomes v m :
  let regions := draw_uncovered_segments (view_text_point v) m in
  let drawn :=
    [Print "[Coverage] Showing coverage"; SetReadOnly true;
     PrintRegions regions; EraseRegions REGION_KEY;
     AddRegions REGION_KEY regions "invalid" "" 0] in
  match view_style_for_scope v "comment" !! "foreground",
        view_style_for_scope v "invalid" !! "background" with
  | Some color_normal, Some color_uncovered =>
      ∃ phantoms,
        show_coverage v m = (drawn ++ [PhantomSetUpdate phantoms], inr tt) ∧
        length phantoms = Z.to_nat (view_tot_lines v + 1) ∧
        ∀ i : nat,
          (i < length phantoms)%nat →
          phantoms !! i
          = Some (create_phantom_count v m color_normal color_uncovered
                    (Z.of_nat i))
  | None, _ => show_coverage v m = (drawn, inl (KeyError "foreground"))
  | Some _, None => show_coverage v m = (drawn, inl (KeyError "background"))
  end.
Proof.
  intros regions drawn. unfold show_coverage, draw_line_counts, getitem.
  destruct (view_style_for_scope v "comment" !! "foreground") as [cn|];
    [|done].
  destruct (view_style_for_scope v "invalid" !! "background") as [cu|];
    [|done].
  eexists. split; [reflexivity|].
  rewrite length_fmap, length_range.
  replace (view_tot_lines v + 1 - 0) with (view_tot_lines v + 1) by lia.
  split; [done|]. intros i Hi.
  rewrite list_lookup_fmap, range_lookup by lia. done.
Qed.

(** ** The command: loading a coverage file *)

Lemma next_match_cases cf files :
  next_match cf files = ([], inl (KeyError "filename")) ∨
  next_match cf files = ([], inr None) ∨
  ∃ file, next_match cf files = ([], inr (Some file)) ∧
          file ∈ files ∧ rec_filename file = Some cf.
Proof.
  induction files as [|f rest IH]; [by right; left|].
  cbn [next_match]. unfold member.
  destruct (rec_filename f) as [n|] eqn:Hn; [|by left].
  rewrite cmd_bind_ret.
  destruct (String.eqb n cf) eqn:Heq.
  - apply String.eqb_eq in Heq as ->. right; right.
    exists f. split_and!; [done|left|done].
  - destruct IH as [?|[?|(file & ? & ? & ?)]]; [by left|by right; left|].
    right; right. exists file. split_and!; [done|by right|done].
Qed.

Lemma next_match_first cf pre file post :
  Forall (λ g, ∃ n, rec_filename g = Some n ∧ n ≠ cf) pre →
  rec_filename file = Some cf →
  next_match cf (pre ++ file :: post) = ([], inr (Some file)).
Proof.
  intros Hpre Hfile. induction Hpre as [|g pre (n & Hn & Hne) _ IH].
  - cbn [app next_match]. rewrite Hfile. unfold member.
    by rewrite cmd_bind_ret, String.eqb_refl.
  - cbn [app next_match]. rewrite Hn. unfold member.
    rewrite cmd_bind_ret.
    by apply String.eqb_neq in Hne as ->.
Qed.

Lemma next_match_none cf files :
  next_match cf files = ([], inr None) ↔
  Forall (λ g, ∃ n, rec_filename g = Some n ∧ n ≠ cf) files.
Proof.
  induction files as [|f rest IH]; [by split|].
  cbn [next_match]. unfold member. rewrite Forall_cons.
  destruct (rec_filename f) as [n|] eqn:Hn.
  - rewrite cmd_bind_ret. destruct (String.eqb n cf) eqn:Heq.
    + apply String.eqb_eq in Heq as ->. split; [done|].
      by intros [(n & [= <-] & Hne) _].
    + apply String.eqb_neq in Heq. rewrite IH. split; [|by intros [_ ?]].
      intros ?. split; [by exists n|done].
  - split; [done|]. by intros [(n & ? & _) _].
Qed.

Local Ltac cmd_step :=
  repeat progress (cbn [member first_item negb orb]; rewrite ?cmd_bind_ret).

Lemma on_done_classified v ld path :
  on_done_outcome v ld path (on_done v ld path).
Proof.
  unfold on_done, getitem.
  destruct (view_variables v !! "file") as [cf|] eqn:Hcf;
    [|by apply od_no_file_variable].
  rewrite cmd_bind_ret, cmd_bind_emit. unfold load.
  destruct (ld path) as [root|] eqn:Hld; [|by eapply od_load_fails].
  cmd_step.
  destruct (root_has_type root) eqn:Htype;
    [|eapply od_not_coverage; eauto].
  destruct (root_version root) as [ver|] eqn:Hver;
    [|eapply od_not_coverage; eauto].
  rewrite bool_decide_eq_true_2 by by eexists.
  cmd_step.
  destruct (String.eqb ver "2.0.0") eqn:Hv; cmd_step.
  2:{ apply String.eqb_neq in Hv. by eapply od_unsupported. }
  apply String.eqb_eq in Hv as ->.
  assert (passes_checks root) as Hchecks by done.
  destruct (root_data root) as [[|data rest]|] eqn:Hdata; cmd_step;
    [by eapply od_empty_data| |by eapply od_no_data].
  destruct (data_files data) as [files|] eqn:Hfiles; cmd_step;
    [|by eapply od_no_files].
  destruct (next_match_cases cf files)
    as [Hnext|[Hnext|(file & Hnext & Hin & Hname)]]; rewrite Hnext.
  - by eapply od_no_filename.
  - by eapply od_no_match.
  - change (([], inr (Some file)) : cmd (option FileRecord))
      with (mret (Some file) : cmd (option FileRecord)).
    cmd_step.
    destruct (rec_segments file) as [segs|] eqn:Hsegs; cmd_step;
      [|by eapply od_no_segments].
    rewrite Hname. cmd_step.
    unfold new_FileMapping.
    destruct (FileMapping_init_built cf segs) as (m & Hm & _).
    rewrite Hm. cmd_step.
    by eapply od_shown.
Qed.

Lemma show_coverage_result v m :
  (show_coverage v m).2 = inr tt ∨
  ∃ key, (show_coverage v m).2 = inl (KeyError key).
Proof.
  unfold show_coverage, draw_line_counts, getitem.
  destruct (view_style_for_scope v "comment" !! "foreground");
    [|right; by eexists].
  destruct (view_style_for_scope v "invalid" !! "background");
    [by left|right; by eexists].
Qed.

(** X12: [on_done] changes the view only when the loaded document has a
    [type], has [version] ["2.0.0"], and the first entry of [data] lists a
    file whose name is the current file and which has segments; in every
    other case it only prints, or raises before touching the view. *)
Theorem X12_view_changed_only_for_matching_file v ld path e :
  e ∈ (on_done v ld path).1 →
  changes_view e = true →
  ∃ cf root data rest files file segs,
    view_variables v !! "file" = Some cf ∧
    ld path = Some root ∧
    root_has_type root = true ∧
    root_version root = Some "2.0.0" ∧
    root_data root = Some (data :: rest) ∧
    data_files data = Some files ∧
    file ∈ files ∧
    rec_filename file = Some cf ∧
    rec_segments file = Some segs.
Proof.
  intros Hin Hchg.
  pose proof (on_done_classified v ld path) as Hcase.
  remember (on_done v ld path) as r eqn:Hr.
  destruct Hcase as [| | | | | | | | | |cf root data rest files file segs m
                       Hcf Hld [Htype Hver] Hdata Hfiles Hnext Hsegs Hm];
    simpl in Hin;
    repeat (apply elem_of_cons in Hin as [->|Hin]; [done|]);
    try (by apply elem_of_nil in Hin).
  exists cf, root, data, rest, files, file, segs.
  split_and!; try done.
  - destruct (next_match_cases cf files)
      as [?|[?|(file' & ? & ? & _)]]; congruence.
  - destruct (next_match_cases cf files)
      as [?|[?|(file' & ? & _ & ?)]]; congruence.
Qed.

Lemma X12_view_changed_only_for_matching_file_witness :
  let v := mkView (λ row col, 100 * row + col) (λ p, (p, p + 80)) 1
             (λ _, <["foreground" := "#888"]> (<["background" := "#f00"]> ∅))
             (<["file" := "a.c"]> ∅) in
  let file := mkFileRecord (Some "a.c")
                (Some [mkSegment 1 1 0 true true;
                       mkSegment 2 1 3 true false]) in
  let root := mkJsonRoot true (Some "2.0.0")
                (Some [mkExportData (Some [file])]) in
  ∃ cf root' data rest files file' segs,
    view_variables v !! "file" = Some cf ∧
    (λ _ : string, Some root) "cov.json" = Some root' ∧
    root_has_type root' = true ∧
    root_version root' = Some "2.0.0" ∧
    root_data root' = Some (data :: rest) ∧
    data_files data = Some files ∧
    file' ∈ files ∧
    rec_filename file' = Some cf ∧
    rec_segments file' = Some segs.
Proof.
  intros v file root.
  apply (X12_view_changed_only_for_matching_file v (λ _, Some root)
           "cov.json" (SetReadOnly true)).
  - vm_compute. right. right. left.
  - reflexivity.
Defined.

(** X13: when the checks pass, the file shown is the first record of
    [data[0]['files']] named like the current file: the mapping is built
    from its segments under that name and handed to [show_coverage];
    records after it and entries of [data] after the first play no part. *)
Theorem X13_first_matching_file_is_shown
    v ld path cf root data rest pre file post segs :
  view_variables v !! "file" = Some cf →
  ld path = Some root →
  root_has_type root = true →
  root_version root = Some "2.0.0" →
  root_data root = Some (data :: rest) →
  data_files data = Some (pre ++ file :: post) →
  Forall (λ g, ∃ n, rec_filename g = Some n ∧ n ≠ cf) pre →
  rec_filename file = Some cf →
  rec_segments file = Some segs →
  ∃ m, FileMapping_init cf segs = Some m ∧
       name m = cf ∧
       on_done v ld path
       = (opening path :: (show_coverage v m).1, (show_coverage v m).2).
Proof.
  intros Hcf Hld Htype Hver Hdata Hfiles Hpre Hname Hsegs.
  pose proof (next_match_first cf pre file post Hpre Hname) as Hnext.
  destruct (FileMapping_init_built cf segs) as (m & Hm & Hb).
  exists m. split_and!; [done|apply (built_name _ _ _ Hb)|].
  unfold on_done, getitem. rewrite Hcf.
  rewrite cmd_bind_ret, cmd_bind_emit. unfold load. rewrite Hld.
  cmd_step. rewrite Htype, Hver.
  rewrite bool_decide_eq_true_2 by by eexists.
  cmd_step. rewrite String.eqb_refl. cmd_step.
  rewrite Hdata. cmd_step. rewrite Hfiles. cmd_step. rewrite Hnext.
  change (([], inr (Some file)) : cmd (option FileRecord))
    with (mret (Some file) : cmd (option FileRecord)).
  cmd_step. rewrite Hsegs. cmd_step. rewrite Hname. cmd_step.
  unfold new_FileMapping. rewrite Hm. by cmd_step.
Qed.

Lemma X13_first_matching_file_is_shown_witness :
  let v := mkView (λ row col, 100 * row + col) (λ p, (p, p + 80)) 1
             (λ _, <["foreground" := "#888"]> (<["background" := "#f00"]> ∅))
             (<["file" := "a.c"]> ∅) in
  let segs := [mkSegment 1 1 0 true true; mkSegment 2 1 3 true false] in
  let other := mkFileRecord (Some "b.c") None in
  let file := mkFileRecord (Some "a.c") (Some segs) in
  let broken := mkFileRecord None None in
  let data := mkExportData (Some [other; file; broken]) in
  let root := mkJsonRoot true (Some "2.0.0")
                (Some [data; mkExportData None]) in
  ∃ m, FileMapping_init "a.c" segs = Some m ∧
       name m = "a.c" ∧
       on_done v (λ _, Some root) "cov.json"
       = (opening "cov.json" :: (show_coverage v m).1,
          (show_coverage v m).2).
Proof.
  intros v segs other file broken data root.
  apply (X13_first_matching_file_is_shown v (λ _, Some root) "cov.json"
           "a.c" root data [mkExportData None] [other] file [broken] segs);
    try reflexivity.
  repeat constructor. exists "b.c". by split.
Defined.

(** X14: [on_done] raises [IndexError] exactly when the checks pass and
    [data] is the empty list; building the mapping never raises it. *)
Theorem X14_IndexError_only_for_empty_data v ld path :
  (on_done v ld path).2 = inl IndexError ↔
  ∃ cf root,
    view_variables v !! "file" = Some cf ∧
    ld path = Some root ∧
    root_has_type root = true ∧
    root_version root = Some "2.0.0" ∧
    root_data root = Some [].
Proof.
  split.
  - intros Hraise.
    pose proof (on_done_classified v ld path) as Hcase.
    remember (on_done v ld path) as r eqn:Hr.
    destruct Hcase as [| | | | |cf root Hcf Hld [Htype Hver] Hdata| | | | |
                       cf root data rest files file segs m];
      simpl in Hraise; try done.
    + by exists cf, root.
    + destruct (show_coverage_result v m) as [?|[key ?]]; congruence.
  - intros (cf & root & Hcf & Hld & Htype & Hver & Hdata).
    unfold on_done, getitem. rewrite Hcf.
    rewrite cmd_bind_ret, cmd_bind_emit. unfold load. rewrite Hld.
    cmd_step. rewrite Htype, Hver.
    rewrite bool_decide_eq_true_2 by by eexists.
    cmd_step. rewrite String.eqb_refl. cmd_step. rewrite Hdata.
    by cmd_step.
Qed.

Lemma X14_IndexError_only_for_empty_data_witness :
  let v := mkView (λ row col, 100 * row + col) (λ p, (p, p + 80)) 1
             (λ _, ∅) (<["file" := "a.c"]> ∅) in
  let root := mkJsonRoot true (Some "2.0.0") (Some []) in
  (on_done v (λ _, Some root) "cov.json").2 = inl IndexError.
Proof.
  intros v root.
  apply (X14_IndexError_only_for_empty_data v (λ _, Some root) "cov.json").
  exists "a.c", root. by split_and!.
Defined.

Lemma pairwise_app l1 x l2 :
  pairwise (l1 ++ x :: l2) = pairwise (l1 ++ [x]) ++ pairwise (x :: l2).
Proof.
  induction l1 as [|a [|b l1] IH]; [done| |].
  - destruct l2; done.
  - cbn [app] in *. by rewrite !pairwise_cons2, IH.
Qed.

Lemma filter_none {A} (P : A → Prop) `{∀ x, Decision (P x)} (l : list A) :
  Forall (λ x, ¬ P x) l → filter P l = [].
Proof.
  induction 1 as [|x l Hx _ IH]; [done|].
  by rewrite filter_cons, decide_False.
Qed.

Lemma active_on_interior l1 a b l2 ln :
  StronglySorted (before position pos_le false) (l1 ++ a :: b :: l2) →
  line a < ln < line b →
  active_on (l1 ++ a :: b :: l2) ln = [a].
Proof.
  intros Hsorted Hln. unfold active_on.
  rewrite pairwise_app, pairwise_cons2, filter_app, filter_cons.
  assert (filter (λ pair, covers ln pair = true) (pairwise (l1 ++ [a])) = [])
    as ->.
  { apply filter_none, Forall_forall.
    intros [p c] [_ Hc]%elem_of_pairwise Hcov. simpl in Hc.
    assert (c ∈ l1 ++ [a]) as Hc'.
    { destruct (l1 ++ [a]); [done|by right]. }
    assert (line c ≤ line a) as Hle.
    { apply elem_of_app in Hc' as [Hc'|Hc'].
      - apply StronglySorted_app in Hsorted as (Hcross & _ & _).
        apply pos_le_line, (Hcross c a Hc'). left.
      - by apply list_elem_of_singleton in Hc' as ->. }
    unfold covers in Hcov. simpl in Hcov.
    apply andb_true_iff in Hcov as [_ H2%Z.ltb_lt].
    pose proof (line_end_le c). lia. }
  assert (filter (λ pair, covers ln pair = true) (pairwise (b :: l2)) = [])
    as ->.
  { apply filter_none, Forall_forall.
    intros [p c] [Hp _]%elem_of_pairwise Hcov. simpl in Hp.
    apply StronglySorted_app in Hsorted as (_ & _ & Hsorted).
    apply StronglySorted_cons in Hsorted as [_ Hsorted].
    pose proof (StronglySorted_head_le (b :: l2) b p Hsorted eq_refl Hp).
    unfold covers in Hcov. simpl in Hcov.
    apply andb_true_iff in Hcov as [H1%Z.leb_le _]. lia. }
  rewrite decide_True; [done|].
  unfold covers, line_end. simpl.
  apply andb_true_iff. split; [apply Z.leb_le; lia|].
  apply Z.ltb_lt. destruct (0 <? col b); lia.
Qed.

(** X15: on a line strictly between the lines of two consecutive stored
    segments only the first of the two is registered, and the count of the
    line is its count; so every line strictly inside an uncovered region
    has count 0. *)
Theorem X15_interior_lines_take_first_count nm segs m (i : nat) a b ln :
  FileMapping_init nm segs = Some m →
  segments m !! i = Some a →
  segments m !! S i = Some b →
  line a < ln < line b →
  segmentsForLine m !! ln = Some [a] ∧
  lineCounts m !! ln = Some (count a) ∧
  ((a, b) ∈ uncovered (segments m) → lineCounts m !! ln = Some 0).
Proof.
  intros Hm Ha Hb Hln. apply FileMapping_init_inv in Hm.
  pose proof (built_segments_sorted _ _ _ Hm) as Hsorted.
  assert (segments m = take i (segments m) ++ a :: b :: drop (S (S i))
                                                         (segments m))
    as Hsplit.
  { rewrite <-(take_drop_middle _ _ _ Ha) at 1. f_equal. f_equal.
    by apply drop_S. }
  assert (active_on (segments m) ln = [a]) as Hact.
  { rewrite Hsplit. apply active_on_interior; [|done]. by rewrite <-Hsplit. }
  assert (lineCounts m !! ln = Some (count a)) as Hcount.
  { by rewrite (built_lineCounts _ _ _ Hm), Hact. }
  split_and!; [|done|].
  - by rewrite (built_segmentsForLine _ _ _ Hm), segmentsForLine_lookup, Hact.
  - intros [Hu _]%list_elem_of_filter. rewrite Hcount. f_equal.
    unfold is_uncovered in Hu. simpl in Hu.
    by apply andb_true_iff in Hu as [?%Z.eqb_eq _].
Qed.

Lemma X15_interior_lines_take_first_count_witness :
  let a := mkSegment 1 4 0 true true in
  let b := mkSegment 4 2 6 true false in
  let m := mkFileMapping "a.c" [a; b]
             (<[1 := [a]]> (<[2 := [a]]> (<[3 := [a]]> (<[4 := [a]]> ∅))))
             (<[1 := 0]> (<[2 := 0]> (<[3 := 0]> (<[4 := 0]> ∅)))) 0 in
  segmentsForLine m !! 2 = Some [a] ∧
  lineCounts m !! 2 = Some (count a) ∧
  ((a, b) ∈ uncovered (segments m) → lineCounts m !! 2 = Some 0).
Proof.
  intros a b m.
  apply (X15_interior_lines_take_first_count "a.c" [b; a] m 0 a b 2).
  - by vm_compute.
  - reflexivity.
  - reflexivity.
  - simpl. lia.
Defined.

(** X16: the order of the input does not matter when segments that share
    a position are the same segment: the constructor returns the same
    mapping, stored segments and registered segments included, for every
    permutation of the input. *)
Theorem X16_input_order_irrelevant nm l1 l2 :
  l1 ≡ₚ l2 →
  (∀ x y, x ∈ l1 → y ∈ l1 → position x = position y → x = y) →
  FileMapping_init nm l1 = FileMapping_init nm l2.
Proof.
  intros Hp Hinj. unfold FileMapping_init.
  by rewrite (sorted_perm_unique position pos_le pos_le_total pos_le_trans
                false l1 l2 Hp Hinj pos_le_antisym).
Qed.

Lemma X16_input_order_irrelevant_witness :
  FileMapping_init "a.c"
    [mkSegment 4 2 1 true false; mkSegment 1 1 3 true true]
  = FileMapping_init "a.c"
      [mkSegment 1 1 3 true true; mkSegment 4 2 1 true false].
Proof.
  apply X16_input_order_irrelevant.
  - apply Permutation_swap.
  - intros x y Hx Hy.
    repeat (apply elem_of_cons in Hx as [->|Hx]);
      repeat (apply elem_of_cons in Hy as [->|Hy]);
      try (by apply elem_of_nil in Hx); try (by apply elem_of_nil in Hy);
      by vm_compute.
Defined.

Lemma show_coverage_first_event v m :
  ∃ t, (show_coverage v m).1 = Print "[Coverage] Showing coverage" :: t.
Proof.
  unfold show_coverage. rewrite cmd_bind_emit. by eexists.
Qed.

(** X17: with the checks passed and a list of files in the first entry of
    [data], [on_done] reports that no file matches, and returns without
    raising, exactly when every record has a [filename] and none of them
    is the current file. *)
Theorem X17_no_matching_file v ld path cf root data rest files :
  view_variables v !! "file" = Some cf →
  ld path = Some root →
  root_has_type root = true →
  root_version root = Some "2.0.0" →
  root_data root = Some (data :: rest) →
  data_files data = Some files →
  (on_done v ld path
   = ([opening path; Print "[Coverage] Couldn't find a matching file"],
      inr tt) ↔
   Forall (λ g, ∃ n, rec_filename g = Some n ∧ n ≠ cf) files).
Proof.
  intros Hcf Hld Htype Hver Hdata Hfiles.
  rewrite <-next_match_none.
  assert (on_done v ld path
          = (opening path
               :: (next_match cf files ≫= λ found,
                     match found with
                     | Some file =>
                         segs ← member (rec_segments file) "segments";
                         filename ← member (rec_filename file) "filename";
                         mapping ← new_FileMapping filename segs;
                         show_coverage v mapping
                     | None =>
                         emit (Print
                                 "[Coverage] Couldn't find a matching file")
                     end).1,
             (next_match cf files ≫= λ found,
                match found with
                | Some file =>
                    segs ← member (rec_segments file) "segments";
                    filename ← member (rec_filename file) "filename";
                    mapping ← new_FileMapping filename segs;
                    show_coverage v mapping
                | None =>
                    emit (Print "[Coverage] Couldn't find a matching file")
                end).2)) as ->.
  { unfold on_done, getitem. rewrite Hcf.
    rewrite cmd_bind_ret, cmd_bind_emit. unfold load. rewrite Hld.
    cmd_step. rewrite Htype, Hver.
    rewrite bool_decide_eq_true_2 by by eexists.
    cmd_step. rewrite String.eqb_refl. cmd_step.
    rewrite Hdata. cmd_step. rewrite Hfiles. by cmd_step. }
  destruct (next_match_cases cf files)
    as [Hnext|[Hnext|(file & Hnext & _ & Hname)]]; rewrite Hnext.
  - split; intros [=].
  - done.
  - change (([], inr (Some file)) : cmd (option FileRecord))
      with (mret (Some file) : cmd (option FileRecord)).
    cmd_step. split; [|intros [=]].
    destruct (rec_segments file) as [segs|]; cmd_step; [|intros [=]].
    rewrite Hname. cmd_step. unfold new_FileMapping.
    destruct (FileMapping_init_built cf segs) as (m & -> & _). cmd_step.
    destruct (show_coverage_first_event v m) as [t ->]. intros [=].
Qed.

Lemma X17_no_matching_file_witness :
  let v := mkView (λ row col, 100 * row + col) (λ p, (p, p + 80)) 1
             (λ _, ∅) (<["file" := "a.c"]> ∅) in
  let files := [mkFileRecord (Some "b.c") None;
                mkFileRecord (Some "c.c") (Some [])] in
  let root := mkJsonRoot true (Some "2.0.0")
                (Some [mkExportData (Some files)]) in
  on_done v (λ _, Some root) "cov.json"
  = ([opening "cov.json";
      Print "[Coverage] Couldn't find a matching file"], inr tt).
Proof.
  intros v files root.
  apply (X17_no_matching_file v (λ _, Some root) "cov.json" "a.c" root
           (mkExportData (Some files)) [] files); try reflexivity.
  repeat constructor; eexists; by split.
Defined.

(** ** The order in which [countedLines] yields the lines *)

Lemma note_key_sorted keys start :
  StronglySorted Z.lt keys →
  (∀ k, k ∈ keys → k ≤ start) →
  StronglySorted Z.lt (note_key keys start).
Proof.
  intros Hsorted Hle. unfold note_key.
  destruct (decide (start ∈ keys)) as [Hin|Hin]; [done|].
  apply StronglySorted_app. split_and!; [|done|repeat constructor].
  intros x1 x2 Hx1 Hx2. apply list_elem_of_singleton in Hx2 as ->.
  specialize (Hle x1 Hx1).
  assert (x1 ≠ start) by (by intros ->). lia.
Qed.

Lemma foldl_note_key_seqZ_sorted (n : nat) start keys :
  StronglySorted Z.lt keys →
  (∀ k, k ∈ keys → k ≤ start) →
  StronglySorted Z.lt (foldl note_key keys (seqZ start (Z.of_nat n))).
Proof.
  revert start keys. induction n as [|n IH]; intros start keys Hsorted Hle.
  - done.
  - rewrite seqZ_cons by lia.
    replace (Z.pred (Z.of_nat (S n))) with (Z.of_nat n) by lia.
    simpl. apply IH; [by apply note_key_sorted|].
    intros k [Hk| ->]%elem_of_note_key; [|lia].
    specialize (Hle k Hk). lia.
Qed.

Lemma register_span_keys_sorted p seg keys :
  StronglySorted Z.lt keys →
  (∀ k, k ∈ keys → k ≤ line p) →
  StronglySorted Z.lt (register_span_keys p seg keys).
Proof.
  intros Hsorted Hle. unfold register_span_keys, range.
  destruct (decide (line_end seg - line p ≤ 0)) as [Hempty|Hsome].
  - by rewrite seqZ_nil.
  - rewrite <-(Z2Nat.id (line_end seg - line p)) by lia.
    by apply foldl_note_key_seqZ_sorted.
Qed.

Lemma activate_keys_sorted prev segs keys :
  StronglySorted (before position pos_le false) (option_list prev ++ segs) →
  StronglySorted Z.lt keys →
  (∀ k, k ∈ keys → ∃ p, prev = Some p ∧ k ≤ line p) →
  StronglySorted Z.lt (activate_keys prev segs keys).
Proof.
  revert prev keys.
  induction segs as [|seg rest IH]; intros prev keys Hsegs Hsorted Hle;
    [done|].
  simpl. destruct prev as [p|]; simpl in Hsegs.
  - apply StronglySorted_cons in Hsegs as [Hp Hsegs].
    assert (line p ≤ line seg) as Hpseg.
    { apply Forall_cons in Hp as [Hp _]. by apply pos_le_line. }
    apply IH; [done| |].
    + apply register_span_keys_sorted; [done|].
      intros k Hk. destruct (Hle k Hk) as (p' & [= <-] & ?). done.
    + intros k Hk. exists seg. split; [done|].
      unfold register_span_keys in Hk.
      apply elem_of_foldl_note_key in Hk as [Hk|Hk].
      * destruct (Hle k Hk) as (p' & [= <-] & ?). lia.
      * apply elem_of_range in Hk. pose proof (line_end_le seg). lia.
  - apply IH; [done..|].
    intros k Hk. by destruct (Hle k Hk) as (p' & ? & _).
Qed.

Lemma dict_items_sorted d keys :
  StronglySorted Z.lt keys →
  StronglySorted (λ p q : Z * Z, p.1 < q.1) (dict_items d keys).
Proof.
  induction 1 as [|k keys _ IH Hk]; [constructor|].
  rewrite dict_items_cons. destruct (d !! k); [|done].
  constructor; [done|].
  apply Forall_forall. intros [ln c] [Hin _]%elem_of_dict_items. simpl.
  by eapply Forall_forall in Hk.
Qed.

(** X18: the keys of [lineCounts] are created in strictly ascending
    order of line, whatever the order of the input, so a generator of
    [countedLines] yields the pairs by ascending line. *)
Theorem X18_countedLines_ascending nm segs :
  ∃ s, FileMapping_new nm segs = Some s ∧
       StronglySorted Z.lt (st_lineCounts_keys s) ∧
       StronglySorted (λ p q : Z * Z, p.1 < q.1) (lineCounts_items s).
Proof.
  destruct (FileMapping_init_built nm segs) as (m & Hm & Hb).
  unfold FileMapping_new. rewrite Hm. eexists. split; [done|].
  assert (StronglySorted Z.lt (activate_keys None (segments m) [])) as Hkeys.
  { apply activate_keys_sorted; [|constructor|].
    - simpl. by eapply built_segments_sorted.
    - by intros k ?%elem_of_nil. }
  assert (NoDup (activate_keys None (segments m) [])) as Hnd.
  { apply NoDup_activate_keys. constructor. }
  unfold lineCounts_items. simpl. unfold resolve_keys.
  rewrite (foldl_note_key_fresh [] _) by done. simpl.
  split; [done|]. by apply dict_items_sorted.
Qed.
